(** * Hyperpenalized ridge regression (GOES autoregression notebook)

    A shallow embedding of [ridge], [tuneridge], the simulation harness
    [test_tuneridge1], the centering cell and the randomization and
    significance lines of [fit] from the notebook, in two readings of the
    same code:

    - [Module F64]: numpy's float64 arithmetic on Rocq's primitive binary64
      floats.  Vectors are sequences, matrices are sequences of rows, and the
      definitions evaluate, so that NaN, Inf and the tolerance test are the
      ones the program meets.
    - [Module Exact]: the same operations over a real closed field with
      MathComp matrices, for the algebraic properties (shrinkage, least
      squares, the covariance sandwich) that are statements about exact
      arithmetic.

    [np.linalg.svd], [np.linalg.solve] and the chi-squared CDF are library
    code: the factorization is a parameter of the embedding, [solve] is
    modelled by its contract in the exact reading, and the CDF is a
    parameter. *)

Set Warnings "-notation-overridden,-ambiguous-paths,-deprecated,-inexact-float".
From Stdlib Require Import Floats Uint63 ZArith.
From mathcomp Require Import boot order algebra.
From mathcomp Require Import fingroup perm.
From mathcomp Require Import algC.

Set Implicit Arguments.
Unset Strict Implicit.
Unset Printing Implicit Defensive.

(** * Part I: float64 reading *)

Module F64.

(** What a call can raise.  [ZeroDivisionError] comes from Python's own
    float division, [LinAlgError] from the factorization, [UnboundLocalError]
    from returning a local that no iteration has assigned, [ValueError] from
    an array operation whose operands have the wrong number of dimensions. *)
Inductive exn : Type :=
  | ZeroDivisionError
  | LinAlgError
  | UnboundLocalError
  | ValueError.

Inductive result (A : Type) : Type :=
  | Ok (a : A)
  | Raise (e : exn).

Arguments Ok {A} a.
Arguments Raise {A} e.

Definition bind {A B : Type} (r : result A) (k : A -> result B) : result B :=
  match r with
  | Ok a => k a
  | Raise e => Raise e
  end.

Notation "x <- r ;; k" := (bind r (fun x => k))
  (at level 61, r at next level, right associativity).

(** A one-dimensional float64 array and a two-dimensional one (its rows).
    An n-by-p array is n rows of length p. *)
Definition vec : Type := seq float.
Definition mat : Type := seq vec.

(** The scalar argument [r2] arrives either as a Python float (the literals
    of [fit]) or as an [np.float64] (the quotient of [test_tuneridge1]); the
    two differ in what [1/r2] does at zero. *)
Inductive scalar : Type :=
  | PyFloat (f : float)
  | NpFloat64 (f : float).

Definition value (r2 : scalar) : float :=
  match r2 with
  | PyFloat f => f
  | NpFloat64 f => f
  end.

Definition is_zero (f : float) : bool := PrimFloat.eqb f 0%float.

(** [1/r2]: Python raises on a zero float divisor, numpy returns Inf or NaN. *)
Definition one_over (r2 : scalar) : result float :=
  match r2 with
  | PyFloat f => if is_zero f then Raise ZeroDivisionError else Ok (1 / f)%float
  | NpFloat64 f => Ok (1 / f)%float
  end.

(** An integer used in float arithmetic. *)
Definition of_nat (n : nat) : float :=
  PrimFloat.of_uint63 (Uint63.of_Z (Z.of_nat n)).

(** [x.shape] *)
Definition shape (x : mat) : nat * nat := (size x, size (head [::] x)).

(** [np.sum]: accumulation from the left (numpy's order for arrays of fewer
    than eight elements). *)
Definition np_sum (v : vec) : float := foldl PrimFloat.add 0%float v.

(** Elementwise operations on arrays of one shape. *)
Definition vmul (a b : vec) : vec := [seq (x.1 * x.2)%float | x <- zip a b].
Definition vsub (a b : vec) : vec := [seq (x.1 - x.2)%float | x <- zip a b].
Definition vsquare (a : vec) : vec := [seq (x * x)%float | x <- a].

(** The Euclidean norm. *)
Definition norm (a : vec) : float := PrimFloat.sqrt (np_sum (vsquare a)).

(** [np.dot] of two vectors, and of a matrix and a vector. *)
Definition dot (a b : vec) : float := np_sum (vmul a b).
Definition np_dot (m : mat) (v : vec) : vec := [seq dot r v | r <- m].

(** [m.T] *)
Definition transpose (m : mat) : mat :=
  [seq [seq nth 0%float r j | r <- m] | j <- iota 0 (size (head [::] m))].

(** The factorization [u, s, vt] that [np.linalg.svd(x, 0)] returns. *)
Definition decomposition : Type := (mat * vec * mat)%type.

(** [g = s / (s**2 + f)] *)
Definition shrinkage (s : vec) (f : float) : vec :=
  [seq (si / (si * si + f))%float | si <- s].

(** The closure [fit] of [tuneridge], with the variables it captures
    ([u], [s], [v], [y]) as arguments. *)
Definition fit (u : mat) (s : vec) (v : mat) (y : vec) (lam : float) : vec :=
  let g := shrinkage s lam in
  np_dot v (vmul (np_dot (transpose u) y) g).

Section Program.

(** [np.linalg.svd(x, 0)] *)
Variable svd : mat -> result decomposition.

(** [ridge(x, y, f)] *)
Definition ridge (x : mat) (y : vec) (f : float) : result vec :=
  d <- svd x ;;
  let '(u, s, vt) := d in
  let v := transpose vt in
  let g := shrinkage s f in
  let b := np_dot v (vmul (np_dot (transpose u) y) g) in
  Ok b.

(** The local variables of [tuneridge] that the loop assigns.  [sigma2],
    [bhat1] and [itr] are unbound until the first iteration. *)
Record locals : Type := Locals {
  bhat : vec;
  lam : float;
  sigma2 : option float;
  bhat1 : option vec;
  itr : option nat
}.

(** How one pass through the loop body ends. *)
Inductive flow : Type :=
  | Break
  | Continue.

Section Loop.

Variables (x : mat) (y : vec).
Variables (n p : nat) (a b : float).
Variable fit_lam : float -> vec.

(** The body of [for itr in range(100)], at iteration [i]. *)
Definition body (i : nat) (st : locals) : flow * locals :=
  let resid := vsub y (np_dot x (bhat st)) in
  let rss := np_sum (vsquare resid) in
  let bss := np_sum (vsquare (bhat st)) in
  let sigma2' := ((rss + lam st * bss) / of_nat (n + p + 2))%float in
  let lam' := ((of_nat p + 2 * a - 2) / (bss / sigma2' + 2 * b))%float in
  let bhat1' := fit_lam lam' in
  if PrimFloat.ltb (np_sum (vsquare (vsub bhat1' (bhat st)))) 1e-4%float
  then (Break, Locals (bhat st) lam' (Some sigma2') (Some bhat1') (Some i))
  else (Continue, Locals bhat1' lam' (Some sigma2') (Some bhat1') (Some i)).

(** [for itr in range(i, i + k)] *)
Fixpoint for_range (i k : nat) (st : locals) : flow * locals :=
  match k with
  | 0 => (Continue, st)
  | k'.+1 =>
      match body i st with
      | (Break, st') => (Break, st')
      | (Continue, st') => for_range i.+1 k' st'
      end
  end.

End Loop.

(** [tuneridge(x, y, r2)] with the iteration cap as a parameter. *)
Definition tuneridge_upto (cap : nat) (x : mat) (y : vec) (r2 : scalar)
  : result (flow * locals) :=
  let '(n, p) := shape x in
  let a := (of_nat p / 2)%float in
  q <- one_over r2 ;;
  let b := (1 / PrimFloat.sqrt (q - 1))%float in
  d <- svd x ;;
  let '(u, s, vt) := d in
  let v := transpose vt in
  let lam0 := 1%float in
  let bhat0 := fit u s v y lam0 in
  Ok (for_range x y n p a b (fit u s v y) 0 cap
        (Locals bhat0 lam0 None None None)).

(** [return bhat, lam, sigma2] *)
Definition returned (st : locals) : result (vec * float * float) :=
  match sigma2 st with
  | Some s2 => Ok (bhat st, lam st, s2)
  | None => Raise UnboundLocalError
  end.

(** [tuneridge(x, y, r2)] *)
Definition tuneridge (x : mat) (y : vec) (r2 : scalar)
  : result (vec * float * float) :=
  r <- tuneridge_upto 100 x y r2 ;;
  returned r.2.

End Program.

(** ** Shapes

    The array operations of [tuneridge] go through only for operands of
    matching shapes: numpy raises a ValueError otherwise, where the
    elementwise operations above stop at the shorter operand.  [conformable]
    states the shapes of a call: [x] has n >= 1 rows of one length p, [y] has
    n entries, and the factorization has the shapes that
    [np.linalg.svd(x, 0)] returns ([u] n-by-k, [s] of length k = min(n, p),
    [vt] k-by-p). *)

Definition rectangular (m : mat) (r c : nat) : bool :=
  (size m == r) && all (fun row => size row == c) m.

Definition conformable (x : mat) (y : vec) (d : decomposition) : bool :=
  let '(u, s, vt) := d in
  let '(n, p) := shape x in
  [&& 0 < n, rectangular x n p, size y == n, size s == minn n p,
      rectangular u n (size s) & rectangular vt (size s) p].

(** ** Inputs used in the examples *)

Definition x_one : mat := [:: [:: 1%float]].
Definition x_zero : mat := [:: [:: 0%float]].
Definition x_wide : mat := [:: [:: 1%float; 0%float]].
Definition y_one : vec := [:: 1%float].
Definition y_small : vec := [:: 0.0078125%float].
Definition x_eye2 : mat := [:: [:: 1%float; 0%float]; [:: 0%float; 1%float]].
Definition y_tiny : vec := [:: 1e-200%float; 0%float].
Definition y_zero : vec := [:: 0%float].
Definition x_1em160 : mat := [:: [:: 1e-160%float]].
Definition x_1em200 : mat := [:: [:: 1e-200%float]].
Definition x_1e200 : mat := [:: [:: 1e200%float]].
Definition x_scaled : mat :=
  [:: [:: 1%float; 0%float]; [:: 0%float; 1e-200%float]].
Definition y_large : vec := [:: 1%float; 1e300%float].

(** The factorization numpy returns for a 1-by-1 matrix [[c]] with c >= 0:
    u = [[1]], s = [c], vt = [[1]]. *)
Definition svd_1x1 (x : mat) : result decomposition :=
  Ok ([:: [:: 1%float]], [:: nth 0%float (head [::] x) 0], [:: [:: 1%float]]).

(** The factorization numpy returns for the 1-by-2 matrix [[1, 0]] (more
    columns than rows): u = [[1]], s = [1], vt = [[1, 0]]. *)
Definition svd_1x2 (x : mat) : result decomposition :=
  Ok ([:: [:: 1%float]], [:: 1%float], [:: [:: 1%float; 0%float]]).

(** The factorization numpy returns for the 2-by-2 identity:
    u = I, s = [1, 1], vt = I. *)
Definition svd_eye2 (x : mat) : result decomposition :=
  Ok (x_eye2, [:: 1%float; 1%float], x_eye2).

(** The factorization u = I, s = [1, 1e-200], vt = I of the diagonal matrix
    [x_scaled]. *)
Definition svd_scaled (x : mat) : result decomposition :=
  Ok (x_eye2, [:: 1%float; 1e-200%float], x_eye2).

(** The factorization numpy returns for a matrix with one row and no
    column: u has no column, s and vt are empty. *)
Definition svd_empty (x : mat) : result decomposition :=
  Ok ([:: [::]], [::], [::]).

(** ** The closure over an object store

    Arrays are objects: [u], [s], [v] and [y] are references that the closure
    [fit] captures, and every numpy operation in its body allocates its
    result.  The store is a sequence of arrays, a reference is a position. *)

Inductive ndarray : Type :=
  | Arr1 (v : vec)
  | Arr2 (m : mat).

Definition heap : Type := seq ndarray.
Definition ref : Type := nat.

Definition deref (h : heap) (r : ref) : ndarray := nth (Arr1 [::]) h r.

(** A computation on the store that may raise. *)
Definition prog (A : Type) : Type := heap -> result (A * heap).

Definition ret {A : Type} (a : A) : prog A := fun h => Ok (a, h).

Definition seq_prog {A B : Type} (c : prog A) (k : A -> prog B) : prog B :=
  fun h =>
    match c h with
    | Ok (a, h') => k a h'
    | Raise e => Raise e
    end.

Notation "x <~ c ;; k" := (seq_prog c (fun x => k))
  (at level 61, c at next level, right associativity).

Definition alloc (a : ndarray) : prog ref := fun h => Ok (size h, rcons h a).

Definition load1 (r : ref) : prog vec :=
  fun h =>
    match deref h r with
    | Arr1 v => Ok (v, h)
    | Arr2 _ => Raise ValueError
    end.

Definition load2 (r : ref) : prog mat :=
  fun h =>
    match deref h r with
    | Arr2 m => Ok (m, h)
    | Arr1 _ => Raise ValueError
    end.

(** [a**2], [a + f], [a / b], [a * b], [m.T] and [np.dot(m, a)]. *)
Definition np_square (a : ref) : prog ref :=
  v <~ load1 a ;; alloc (Arr1 (vsquare v)).

Definition np_add_scalar (a : ref) (f : float) : prog ref :=
  v <~ load1 a ;; alloc (Arr1 [seq (t + f)%float | t <- v]).

Definition np_divide (a b : ref) : prog ref :=
  v <~ load1 a ;; w <~ load1 b ;;
  alloc (Arr1 [seq (t.1 / t.2)%float | t <- zip v w]).

Definition np_multiply (a b : ref) : prog ref :=
  v <~ load1 a ;; w <~ load1 b ;; alloc (Arr1 (vmul v w)).

Definition np_T (m : ref) : prog ref :=
  mm <~ load2 m ;; alloc (Arr2 (transpose mm)).

Definition np_dot_ref (m a : ref) : prog ref :=
  mm <~ load2 m ;; v <~ load1 a ;; alloc (Arr1 (np_dot mm v)).

(** One call of the closure [fit(lam)]. *)
Definition fit_call (u s v y : ref) (lam : float) : prog ref :=
  s2 <~ np_square s ;;
  d <~ np_add_scalar s2 lam ;;
  g <~ np_divide s d ;;
  ut <~ np_T u ;;
  c <~ np_dot_ref ut y ;;
  cg <~ np_multiply c g ;;
  np_dot_ref v cg.

(** The calls [fit(l)] for l in [lams], in order. *)
Fixpoint fit_calls (u s v y : ref) (lams : seq float) : prog (seq ref) :=
  match lams with
  | [::] => ret [::]
  | l :: lams' =>
      r <~ fit_call u s v y l ;;
      rs <~ fit_calls u s v y lams' ;;
      ret (r :: rs)
  end.

(** A store holding u, s, v and y for x = [[1]], y = [1]. *)
Definition store_one : heap :=
  [:: Arr2 [:: [:: 1%float]]; Arr1 [:: 1%float]; Arr2 [:: [:: 1%float]];
      Arr1 [:: 1%float]].

(** ** The simulation harness [test_tuneridge1]

    The normal draws ([z] for the design, [e] for the noise) are arguments;
    Python's [t**2] (which raises OverflowError on a float whose square is
    out of range), numpy's [r**k] for an integer array, [np.linalg.inv] and
    [np.linalg.solve] are library code and parameters. *)

Inductive harness_exn : Type :=
  | IndexError
  | OverflowError
  | Library (e : exn).

Inductive harness_result (A : Type) : Type :=
  | Done (a : A)
  | Fail (e : harness_exn).

Arguments Done {A} a.
Arguments Fail {A} e.

Definition lift {A : Type} (r : result A) : harness_result A :=
  match r with
  | Ok a => Done a
  | Raise e => Fail (Library e)
  end.

Definition hbind {A B : Type} (r : harness_result A)
    (k : A -> harness_result B) : harness_result B :=
  match r with
  | Done a => k a
  | Fail e => Fail e
  end.

Notation "x <-- r ;; k" := (hbind r (fun x => k))
  (at level 61, r at next level, right associativity).

(** [b[i] = t]: an index past the end raises. *)
Definition setitem (b : vec) (i : nat) (t : float) : harness_result vec :=
  if i < size b then Done (set_nth 0%float b i t) else Fail IndexError.

(** The columns after the first of one row of x, updated in place from the
    left: [x[:, j] = r*x[:, j-1] + c*x[:, j]]. *)
Fixpoint ar_tail (r c prev : float) (row : vec) : vec :=
  match row with
  | [::] => [::]
  | t :: row' =>
      let t' := (r * prev + c * t)%float in
      t' :: ar_tail r c t' row'
  end.

Definition ar_row (r c : float) (row : vec) : vec :=
  match row with
  | [::] => [::]
  | t :: row' => t :: ar_tail r c t row'
  end.

(** [np.var] *)
Definition np_var (v : vec) : float :=
  let m := (np_sum v / of_nat (size v))%float in
  (np_sum (vsquare [seq (t - m)%float | t <- v]) / of_nat (size v))%float.

(** [np.trace] *)
Definition np_trace (m : mat) : float :=
  np_sum [seq nth 0%float (nth [::] m i) i | i <- iota 0 (size m)].

Section Harness.

Variable svd : mat -> result decomposition.
Variable pow2 : float -> harness_result float.
Variable powi : float -> nat -> float.
Variable inv : mat -> result mat.
Variable solve : mat -> vec -> result vec.

(** The loop over the columns: its body, and with it [r**2], runs only when
    there are at least two columns. *)
Definition ar_columns (p : nat) (r : float) (z : mat) : harness_result mat :=
  if 1 < p then
    rr <-- pow2 r ;;
    Done [seq ar_row r (PrimFloat.sqrt (1 - rr)) row | row <- z]
  else Done z.

(** [test_tuneridge1(n, p, r, sig)] with its draws; [sig**2] is evaluated
    twice in the source, with the same outcome. *)
Definition test_tuneridge1 (n p : nat) (r sig : float) (z : mat) (e : vec)
  : harness_result (float * float * float * vec) :=
  x <-- ar_columns p r z ;;
  let b := nseq p 0%float in
  b <-- setitem b 0 1%float ;;
  b <-- setitem b 1 (-1)%float ;;
  let Ey := np_dot x b in
  let y := [seq (t.1 + sig * t.2)%float | t <- zip Ey e] in
  ss <-- pow2 sig ;;
  let r2 := (np_var Ey / (np_var Ey + ss))%float in
  let covx :=
    [seq [seq powi r (maxn i j - minn i j) | j <- iota 0 p] | i <- iota 0 p] in
  ci <-- lift (inv covx) ;;
  cb <-- lift (solve covx b) ;;
  let lam_opt := (ss * np_trace ci / dot b cb)%float in
  t <-- lift (tuneridge svd x y (NpFloat64 r2)) ;;
  let '(bhat, lam, sigma2) := t in
  Done (lam, lam_opt, r2, bhat).

End Harness.

(** ** The steps of section 4.2, written from the specification *)

Module Spec.

Definition shapeParam (p : nat) : float := (of_nat p / 2)%float.

Definition scaleParam (r2 : float) : float :=
  (1 / PrimFloat.sqrt (1 / r2 - 1))%float.

(** rss = ||y - X b||^2 and bss = ||b||^2 *)
Definition rss (x : mat) (y bh : vec) : float :=
  np_sum (vsquare (vsub y (np_dot x bh))).

Definition bss (bh : vec) : float := np_sum (vsquare bh).

(** sigma^2 = (rss + lambda bss) / (n + p + 2) *)
Definition noise (n p : nat) (rss lam bss : float) : float :=
  ((rss + lam * bss) / of_nat (n + p + 2))%float.

(** lambda = (p + 2a - 2) / (bss / sigma^2 + 2b) *)
Definition penalty (p : nat) (a b bss s2 : float) : float :=
  ((of_nat p + 2 * a - 2) / (bss / s2 + 2 * b))%float.

(** One round of step 3: from the current coefficients and penalty to the
    new noise variance, the new penalty and the refitted coefficients. *)
Definition round (solve : float -> vec) (x : mat) (y : vec) (n p : nat)
    (a b : float) (cur : vec * float) : float * float * vec :=
  let '(bh, lam) := cur in
  let s2 := noise n p (rss x y bh) lam (bss bh) in
  let lam' := penalty p a b (bss bh) s2 in
  (s2, lam', solve lam').

(** The coefficients and penalty after k rounds with no early stop, from
    lambda = 1. *)
Fixpoint chain (solve : float -> vec) (x : mat) (y : vec) (n p : nat)
    (a b : float) (k : nat) : vec * float :=
  match k with
  | 0 => (solve 1%float, 1%float)
  | k'.+1 =>
      let '(_, lam', bh') :=
        round solve x y n p a b (chain solve x y n p a b k') in
      (bh', lam')
  end.

Lemma chain_succ (solve : float -> vec) (x : mat) (y : vec) (n p : nat)
    (a b : float) (k : nat) :
  chain solve x y n p a b k.+1 =
    (let '(_, lam', bh') :=
       round solve x y n p a b (chain solve x y n p a b k) in
     (bh', lam')).
Proof. by []. Qed.

End Spec.

End F64.

(** * Part II: exact reading *)

Module Exact.

Local Open Scope ring_scope.
Import GRing.Theory Num.Theory Order.Theory.

Section Arrays.

Variable R : rcfType.

(** One-dimensional arrays are column vectors. *)
Definition np_sum (m : nat) (v : 'cV[R]_m) : R := \sum_i v i 0.

Definition vsquare (m : nat) (v : 'cV[R]_m) : 'cV[R]_m := \col_i (v i 0) ^+ 2.

Definition vmul (m : nat) (a b : 'cV[R]_m) : 'cV[R]_m :=
  \col_i (a i 0 * b i 0).

(** [np.dot] of two vectors. *)
Definition dot (m : nat) (a b : 'cV[R]_m) : R := np_sum (vmul a b).

(** The Euclidean norm and its square. *)
Definition sqnorm (m : nat) (v : 'cV[R]_m) : R := np_sum (vsquare v).
Definition norm (m : nat) (v : 'cV[R]_m) : R := Num.sqrt (sqnorm v).

(** [g = s / (s**2 + f)] *)
Definition shrinkage (k : nat) (s : 'cV[R]_k) (f : R) : 'cV[R]_k :=
  \col_i (s i 0 / ((s i 0) ^+ 2 + f)).

(** The closure [fit] of [tuneridge] with its captured variables. *)
Definition fit (n p k : nat) (u : 'M[R]_(n, k)) (s : 'cV[R]_k)
    (v : 'M[R]_(p, k)) (y : 'cV[R]_n) (lam : R) : 'cV[R]_p :=
  let g := shrinkage s lam in
  v *m vmul (u^T *m y) g.

(** The factorization [u, s, vt]. *)
Definition decomposition (n p k : nat) : Type :=
  ('M[R]_(n, k) * 'cV[R]_k * 'M[R]_(k, p))%type.

(** What makes [(u, s, vt)] a singular value decomposition of [x]. *)
Definition is_svd (n p k : nat) (x : 'M[R]_(n, p)) (d : decomposition n p k)
  : Prop :=
  let '(u, s, vt) := d in
  [/\ x = u *m diag_mx s^T *m vt,
      u^T *m u = 1%:M,
      vt *m vt^T = 1%:M
    & forall i, 0 <= s i 0].

Section Program.

Variables n p k : nat.

(** [np.linalg.svd(x, 0)] *)
Variable svd : 'M[R]_(n, p) -> decomposition n p k.

(** [ridge(x, y, f)] *)
Definition ridge (x : 'M[R]_(n, p)) (y : 'cV[R]_n) (f : R) : 'cV[R]_p :=
  let '(u, s, vt) := svd x in
  let v := vt^T in
  let g := shrinkage s f in
  let b := v *m vmul (u^T *m y) g in
  b.

(** The residual sum of squares of a coefficient vector. *)
Definition rss (x : 'M[R]_(n, p)) (y : 'cV[R]_n) (bh : 'cV[R]_p) : R :=
  np_sum (vsquare (y - x *m bh)).

Definition bss (bh : 'cV[R]_p) : R := np_sum (vsquare bh).

(** The local variables of [tuneridge] that the loop assigns. *)
Record locals : Type := Locals {
  bhat : 'cV[R]_p;
  lam : R;
  sigma2 : option R
}.

Inductive flow : Type :=
  | Break
  | Continue.

Section Loop.

Variables (x : 'M[R]_(n, p)) (y : 'cV[R]_n).
Variables (a b : R).
Variable fit_lam : R -> 'cV[R]_p.

(** Equation 21: [sigma2 = (rss + lam*bss) / (n + p + 2)]. *)
Definition next_sigma2 (st : locals) : R :=
  (rss x y (bhat st) + lam st * bss (bhat st)) / (n + p + 2)%:R.

(** The divisor of equation 24: [bss/sigma2 + 2*b]. *)
Definition divisor (st : locals) : R :=
  bss (bhat st) / next_sigma2 st + 2 * b.

(** Equation 24: [lam = (p + 2*a - 2) / (bss/sigma2 + 2*b)]. *)
Definition next_lam (st : locals) : R :=
  (p%:R + 2 * a - 2) / divisor st.

(** The body of [for itr in range(100)]. *)
Definition body (st : locals) : flow * locals :=
  let sigma2' := next_sigma2 st in
  let lam' := next_lam st in
  let bhat1 := fit_lam lam' in
  if np_sum (vsquare (bhat1 - bhat st)) < (10 ^+ 4)^-1
  then (Break, Locals (bhat st) lam' (Some sigma2'))
  else (Continue, Locals bhat1 lam' (Some sigma2')).

Fixpoint for_range (j : nat) (st : locals) : flow * locals :=
  match j with
  | 0 => (Continue, st)
  | j'.+1 =>
      match body st with
      | (Break, st') => (Break, st')
      | (Continue, st') => for_range j' st'
      end
  end.

End Loop.

(** The hyperpenalty parameters. *)
Definition shape_a : R := p%:R / 2.
Definition scale_b (r2 : R) : R := 1 / Num.sqrt (1 / r2 - 1).

(** The state before the loop: [lam = 1.], [bhat = fit(lam)]. *)
Definition start (x : 'M[R]_(n, p)) (y : 'cV[R]_n) : locals :=
  let '(u, s, vt) := svd x in
  Locals (fit u s vt^T y 1) 1 None.

(** [tuneridge(x, y, r2)] stopped after at most [cap] iterations. *)
Definition tuneridge_upto (cap : nat) (x : 'M[R]_(n, p)) (y : 'cV[R]_n)
    (r2 : R) : flow * locals :=
  let '(u, s, vt) := svd x in
  for_range x y shape_a (scale_b r2) (fit u s vt^T y) cap (start x y).

End Program.

(** ** The significance lines of [fit] *)

Section Significance.

Variable p : nat.

(** The chi-squared distribution function [chi2(df).cdf]. *)
Variable chi2_cdf : nat -> R -> R.

(** [np.linalg.solve(a, b)], by its contract: the solution of [a z = b], a
    [LinAlgError] ([None]) when [a] is singular. *)
Definition solve (m : nat) (a : 'M[R]_p) (b : 'M[R]_(p, m))
  : option 'M[R]_(p, m) :=
  if a \in unitmx then Some (invmx a *m b) else None.

(** [xtx = np.dot(x.T, x)] *)
Definition gram (n : nat) (x : 'M[R]_(n, p)) : 'M[R]_p := x^T *m x.

(** The lines of [fit] that compute [H] and [V]. *)
Definition fit_cov (xtx : 'M[R]_p) (lam s2 : R) : option 'M[R]_p :=
  let H := xtx + lam *: 1%:M in
  if solve H xtx is Some z then
    if solve H z^T is Some w then Some (s2 *: w) else None
  else None.

(** The lines of [fit] from [H = ...] to [pv = ...]: the statistic [cs] and
    the p-value [pv]. *)
Definition fit_stats (xtx : 'M[R]_p) (b : 'cV[R]_p) (lam s2 : R)
  : option (R * R) :=
  if fit_cov xtx lam s2 is Some V then
    if solve V b is Some t then
      let cs := dot b t in
      let pv := 1 - chi2_cdf p cs in
      Some (cs, pv)
    else None
  else None.

End Significance.

(** The factorization of the 1-by-1 matrix [[1]]: u = [[1]], s = [1],
    vt = [[1]]. *)
Definition svd_one (x : 'M[R]_(1, 1)) : decomposition 1 1 1 :=
  (1%:M, 1%:M, 1%:M).

(** The factorization of the 1-by-2 zero matrix: u = [[1]], s = [0],
    vt = [[1, 0]]. *)
Definition svd_zero_wide (x : 'M[R]_(1, 2)) : decomposition 1 2 1 :=
  (1%:M, 0, row_mx 1%:M 0).

(** ** The data preparation cells and the randomization of [fit] *)

(** [v.mean()] *)
Definition np_mean (m : nat) (v : 'cV[R]_m) : R := np_sum v / m%:R.

(** [y -= y.mean()] *)
Definition center (m : nat) (v : 'cV[R]_m) : 'cV[R]_m :=
  \col_i (v i 0 - np_mean v).

(** [x -= x.mean(0)]: every column loses its own mean. *)
Definition center_columns (n p : nat) (x : 'M[R]_(n, p)) : 'M[R]_(n, p) :=
  \matrix_(i, j) (x i j - np_mean (col j x)).

(** [y[ii]] where [ii = np.random.permutation(len(y))], in [fit]. *)
Definition take (m : nat) (ii : 'S_m) (v : 'cV[R]_m) : 'cV[R]_m :=
  \col_i v (ii i) 0.

End Arrays.

(** The 1-by-1 matrix [[1]] over the real algebraic numbers, for the
    examples. *)
Definition one : 'M[algR]_1 := 1%:M.

End Exact.

(** * Part III: the float64 reading, results *)

Section F64Loop.

Import F64.

Variables (x : mat) (y : vec) (n p : nat) (a b : float).
Variable solve : float -> vec.

Let body := body x y n p a b solve.
Let for_range := for_range x y n p a b solve.
Let round := Spec.round solve x y n p a b.
Let chain := Spec.chain solve x y n p a b.

(** One pass through the body performs one round of section 4.2 on the
    current coefficients and penalty. *)
Lemma body_round (i : nat) (st : locals) (s2 lam' : float) (bh' : vec) :
  round (bhat st, lam st) = (s2, lam', bh') ->
  let '(fl, st') := body i st in
  [/\ sigma2 st' = Some s2, lam st' = lam', bhat1 st' = Some bh',
      itr st' = Some i
    & bhat st' = if fl is Break then bhat st else bh'].
Proof.
rewrite /round /Spec.round /body /F64.body /Spec.noise /Spec.penalty.
rewrite /Spec.rss /Spec.bss => -[<- <- <-].
by case: ifP => _; split.
Qed.

(** The loop follows the chain of rounds: after it has run from iteration
    [i], it stands at some iteration [j] of the chain. *)
Lemma for_range_chain (k i : nat) (st : locals) :
  (bhat st, lam st) = chain i ->
  let '(fl, st') := for_range i k st in
  exists j : nat,
    [/\ i <= j <= i + k,
        fl = Continue -> j = i + k /\ (bhat st', lam st') = chain j,
        j = i -> st' = st /\ fl = Continue
      & i < j ->
        let '(s2, lam', bh') := round (chain j.-1) in
        [/\ sigma2 st' = Some s2, lam st' = lam', bhat1 st' = Some bh',
            itr st' = Some j.-1
          & fl = Break -> bhat st' = (chain j.-1).1]].
Proof.
elim: k i st => [|k IH] i st Hst /=.
  exists i; split=> //; first by rewrite addn0 leqnn.
    by move=> _; rewrite addn0.
  by rewrite ltnn.
case Er: (round (chain i)) => [[s2 lam'] bh'].
have := @body_round i st s2 lam' bh'; rewrite Hst => /(_ Er).
rewrite -/(body i st).
case Eb: (body i st) => [[] st1] [Hs Hl Hb1 Hi Hb].
  exists i.+1; split=> //.
  - by rewrite leqnSn /= addnS ltnS leq_addr.
  - by move/eqP; rewrite eqn_leq ltnn.
  - by move=> _ /=; rewrite Er; split=> // _; rewrite -Hst.
have Hst1 : (bhat st1, lam st1) = chain i.+1.
  by rewrite /chain /= -/(chain i) -/(round (chain i)) Er Hb Hl.
have := IH i.+1 st1 Hst1.
rewrite -/(for_range i.+1 k st1).
case: (for_range i.+1 k st1) => fl st' [j [/andP [Hij Hjk] Hc He Hr]].
exists j; split=> //.
- by rewrite (ltnW Hij) /= addnS -addSn.
- by move=> /Hc; rewrite addnS -addSn.
- by move=> Hji; move: Hij; rewrite Hji ltnn.
move=> _; move: Hij; rewrite leq_eqVlt => /orP [/eqP Hj|Hlt]; last exact: Hr.
have [-> ->] := He (esym Hj).
by rewrite -Hj /= Er; split.
Qed.

End F64Loop.

Section F64Arithmetic.

Import F64.

(** NaN absorbs products and sums. *)
Lemma mul_nan_r (t : float) : (t * nan)%float = nan.
Proof.
apply: Prim2SF_inj; rewrite FloatAxioms.mul_spec.
by case: (Prim2SF t) => [[]|[]||[] ? ?].
Qed.

Lemma add_nan_r (t : float) : (t + nan)%float = nan.
Proof.
apply: Prim2SF_inj; rewrite FloatAxioms.add_spec.
by case: (Prim2SF t) => [[]|[]||[] ? ?].
Qed.

Lemma add_nan_l (t : float) : (nan + t)%float = nan.
Proof.
apply: Prim2SF_inj; rewrite FloatAxioms.add_spec.
by case: (Prim2SF t) => [[]|[]||[] ? ?].
Qed.

(** The floats that compare equal to zero are the two signed zeros. *)
Lemma is_zero_cases (t : float) :
  is_zero t = true -> t = 0%float \/ t = (-0)%float.
Proof.
rewrite /is_zero FloatAxioms.eqb_spec.
case E: (Prim2SF t) => [[]|[]||[] m e] //= _.
- by right; apply: Prim2SF_inj; rewrite E.
- by left; apply: Prim2SF_inj; rewrite E.
Qed.

(** A float above zero is not a zero. *)
Lemma positive_not_zero (t : float) :
  PrimFloat.ltb 0%float t = true -> is_zero t = false.
Proof.
rewrite /is_zero FloatAxioms.ltb_spec FloatAxioms.eqb_spec.
by case: (Prim2SF t) => [[]|[]||[] m e].
Qed.

(** A sum over an array that holds a NaN is NaN. *)
Lemma foldl_add_nan (v : vec) : foldl PrimFloat.add nan v = nan.
Proof. by elim: v => //= t v IH; rewrite add_nan_l. Qed.

Lemma np_sum_nan (v : vec) (i : nat) :
  i < size v -> nth 0%float v i = nan -> np_sum v = nan.
Proof.
rewrite /np_sum; move: 0%float {2}0%float.
elim: v i => [//|t v IH] [|i] d acc /=.
  by move=> _ ->; rewrite add_nan_r foldl_add_nan.
by rewrite ltnS; apply: IH.
Qed.

End F64Arithmetic.

Section F64Results.

Import F64.

Lemma one_over_positive (r2 : scalar) :
  PrimFloat.ltb 0%float (value r2) = true ->
  one_over r2 = Ok (1 / value r2)%float.
Proof. by case: r2 => f //= /positive_not_zero ->. Qed.

(** How a run of at most [cap] iterations ends, in terms of the rounds of
    section 4.2. *)
Lemma tuneridge_upto_chain (svd : mat -> result decomposition) (cap : nat)
    (x : mat) (y : vec) (r2 : scalar) (q : float) (u : mat) (s : vec)
    (vt : mat) :
  one_over r2 = Ok q -> svd x = Ok (u, s, vt) ->
  let a := Spec.shapeParam (shape x).2 in
  let b := (1 / PrimFloat.sqrt (q - 1))%float in
  let solve := fit u s (transpose vt) y in
  let round := Spec.round solve x y (shape x).1 (shape x).2 a b in
  let chain := Spec.chain solve x y (shape x).1 (shape x).2 a b in
  exists (fl : flow) (st : locals) (k : nat),
    [/\ tuneridge_upto svd cap x y r2 = Ok (fl, st),
        k <= cap,
        fl = Continue -> k = cap /\ (bhat st, lam st) = chain k,
        k = 0 ->
        st = Locals (solve 1%float) 1%float None None None /\ fl = Continue
      & 0 < k ->
        let '(s2, lam', bh') := round (chain k.-1) in
        [/\ sigma2 st = Some s2, lam st = lam', bhat1 st = Some bh',
            itr st = Some k.-1
          & fl = Break -> bhat st = (chain k.-1).1]].
Proof.
move=> Hq Hsvd a b solve round chain.
rewrite /tuneridge_upto Hq /= Hsvd /=.
set st0 := Locals _ _ _ _ _.
have H0 : (bhat st0, lam st0) = chain 0 by [].
have := @for_range_chain x y (size x) (size (head [::] x)) a b solve cap 0 st0 H0.
case: (for_range _ _ _ _ _ _ _ _ _ _) => fl st [k [Hk Hc He Hr]].
by exists fl, st, k; split.
Qed.

(** C5: with r2 in (0,1), tuneridge sets a = p/2 and b = 1/sqrt(1/r2 - 1),
    starts from lambda = 1 with the coefficients solved at lambda = 1, and
    runs k <= 100 iterations, each of which is one round of section 4.2 on
    the current coefficients: rss and bss, then sigma^2 from the penalty
    before the update, then the new penalty, then the refit at the new
    penalty.  The values it ends with are those of round k of that chain. *)
Theorem tuneridge_update_order (svd : mat -> result decomposition) (x : mat)
    (y : vec) (r2 : scalar) (u : mat) (s : vec) (vt : mat) :
  PrimFloat.ltb 0%float (value r2) = true ->
  PrimFloat.ltb (value r2) 1%float = true ->
  svd x = Ok (u, s, vt) ->
  let '(n, p) := shape x in
  let a := Spec.shapeParam p in
  let b := Spec.scaleParam (value r2) in
  let solve := fit u s (transpose vt) y in
  exists (fl : flow) (st : locals) (k : nat),
    [/\ tuneridge_upto svd 100 x y r2 = Ok (fl, st)
        /\ tuneridge svd x y r2 = returned st,
        0 < k <= 100,
        fl = Continue -> k = 100
      & let '(s2, lam', bh') :=
          Spec.round solve x y n p a b (Spec.chain solve x y n p a b k.-1) in
        [/\ sigma2 st = Some s2, lam st = lam', bhat1 st = Some bh'
          & itr st = Some k.-1]].
Proof.
move=> Hpos _ Hsvd /=.
have [fl [st [k [Hrun Hk Hc H0 Hr]]]] :=
  @tuneridge_upto_chain svd 100 x y r2 _ u s vt (one_over_positive Hpos) Hsvd.
have Hk0 : 0 < k.
  by case: k H0 Hc {Hrun Hk Hr} => // /(_ erefl) [_ ->] /(_ erefl) [].
exists fl, st, k; split=> //.
- by split=> //; rewrite /tuneridge Hrun.
- by rewrite Hk0.
- by move=> /Hc [].
by move: (Hr Hk0); case: (Spec.round _ _ _ _ _ _ _ _) => [[s2 lam'] bh'] [].
Qed.

Lemma tuneridge_update_order_witness :
  (PrimFloat.ltb 0%float 0.5%float = true
   /\ PrimFloat.ltb 0.5%float 1%float = true)
  /\ exists (fl : flow) (st : locals) (k : nat),
       tuneridge_upto svd_1x1 100 x_one y_one (PyFloat 0.5) = Ok (fl, st)
       /\ 0 < k <= 100.
Proof.
split; first by split.
have [fl [st [k [[Hrun _] Hk _ _]]]] :=
  @tuneridge_update_order svd_1x1 x_one y_one (PyFloat 0.5)
    [:: [:: 1%float]] [:: 1%float] [:: [:: 1%float]] erefl erefl erefl.
by exists fl, st, k.
Defined.

(** A run of the full loop has assigned [sigma2]: the return cannot fail. *)
Lemma tuneridge_upto_returned (svd : mat -> result decomposition) (x : mat)
    (y : vec) (r2 : scalar) (q : float) (d : decomposition) :
  one_over r2 = Ok q -> svd x = Ok d ->
  exists (fl : flow) (st : locals) (s2 : float),
    tuneridge_upto svd 100 x y r2 = Ok (fl, st) /\ sigma2 st = Some s2.
Proof.
case: d => [[u s] vt] Hq Hsvd.
have [fl [st [k [Hrun Hk Hc H0 Hr]]]] :=
  @tuneridge_upto_chain svd 100 x y r2 q u s vt Hq Hsvd.
have Hk0 : 0 < k.
  by case: k H0 Hc {Hrun Hk Hr} => // /(_ erefl) [_ ->] /(_ erefl) [].
move: (Hr Hk0); case: (Spec.round _ _ _ _ _ _ _ _) => [[s2 lam'] bh'] [Hs _ _ _ _].
by exists fl, st, s2.
Qed.

(** C1: on x = [[1]], y = [0.0078125], r2 = 0.5 the tolerance test is met in
    the first iteration (itr = 0, squared difference 2^-16); the tuner stops
    and returns the coefficients 0.00390625 fitted at lambda = 1 together
    with the updated lambda = 0, while the coefficients refitted at that
    lambda (the value of bhat1, and of ridge at lambda = 0) are 0.0078125. *)
Theorem tuneridge_converged_returns_stale :
  [/\ tuneridge_upto svd_1x1 100 x_one y_small (PyFloat 0.5)
        = Ok (Break,
              Locals [:: 0.00390625%float] 0%float
                (Some 7.62939453125e-06%float) (Some [:: 0.0078125%float])
                (Some 0)),
      tuneridge svd_1x1 x_one y_small (PyFloat 0.5)
        = Ok ([:: 0.00390625%float], 0%float, 7.62939453125e-06%float)
    & ridge svd_1x1 x_one y_small 0%float = Ok [:: 0.0078125%float]].
Proof. by split; vm_compute. Qed.

(** C2, as stated, fails: with r2 = 1 the tuner returns a result, and so it
    does for a matrix with more columns than rows and for r2 = 2 (NaN
    outputs); an np.float64 zero is accepted too. *)
Lemma tuneridge_accepts_bad_arguments :
  [/\ tuneridge svd_1x1 x_one y_one (PyFloat 1)
        = Ok ([:: 1%float], 0%float, 0%float),
      tuneridge svd_1x2 x_wide y_one (PyFloat 0.5)
        = Ok ([:: 0.98487204977402432%float; 0%float],
              0.0061998262915783512%float, 0.0030255900451951344%float),
      tuneridge svd_1x1 x_one y_one (PyFloat 2) = Ok ([:: nan], nan, nan)
    & tuneridge svd_1x1 x_one y_one (NpFloat64 0)
        = Ok ([:: 1%float], 0%float, 0%float)].
Proof. by split; vm_compute. Qed.

(** C2, amended: tuneridge checks neither the shape of x against p <= n
    nor the value of r2, and never fails with InvalidArgument.  A Python
    float r2 equal to zero makes 1/r2 raise ZeroDivisionError before the
    factorization; a failing factorization fails the call with its own
    error; and on arguments of conformable shapes (x with n >= 1 rows of one
    length, y of length n, a factorization of the shapes numpy returns) the
    call returns a triple for every other r2 and every p, p > n included. *)
Theorem tuneridge_raises_only (svd : mat -> result decomposition) (x : mat)
    (y : vec) (r2 : scalar) :
  match one_over r2 with
  | Raise e =>
      [/\ e = ZeroDivisionError,
          exists2 f : float, r2 = PyFloat f & is_zero f = true
        & tuneridge svd x y r2 = Raise ZeroDivisionError]
  | Ok _ =>
      match svd x with
      | Raise e => tuneridge svd x y r2 = Raise e
      | Ok d =>
          conformable x y d ->
          exists res : vec * float * float, tuneridge svd x y r2 = Ok res
      end
  end.
Proof.
case Hq: (one_over r2) => [q|e].
  case Hsvd: (svd x) => [d|e].
    have [fl [st [s2 [Hrun Hs]]]] := @tuneridge_upto_returned svd x y r2 q d Hq Hsvd.
    by exists (bhat st, lam st, s2); rewrite /tuneridge Hrun /= /returned Hs.
  by rewrite /tuneridge /tuneridge_upto Hq /= Hsvd.
move: Hq; rewrite /tuneridge /tuneridge_upto.
case: r2 => f //=; case Hz: (is_zero f) => //= -[<-].
by split=> //; exists f.
Qed.

Lemma tuneridge_raises_only_witness :
  conformable x_wide y_one ([:: [:: 1%float]], [:: 1%float], x_wide)
  /\ exists res : vec * float * float,
       tuneridge svd_1x2 x_wide y_one (PyFloat 0.5) = Ok res.
Proof.
split; first by vm_compute.
exact: (@tuneridge_raises_only svd_1x2 x_wide y_one (PyFloat 0.5) isT).
Defined.

(** C4, as stated, fails: on x = [[1]], y = [1], r2 = 2 the loop runs all
    100 iterations without meeting the tolerance (every comparison is with
    NaN) and the value returned is the bare triple (bhat, lam, sigma2): the
    return reads neither the iteration count nor how the loop ended, so the
    same triple comes back whatever those are. *)
Lemma tuneridge_exhausted_without_flag :
  [/\ tuneridge_upto svd_1x1 100 x_one y_one (PyFloat 2)
        = Ok (Continue,
              Locals [:: nan] nan (Some nan) (Some [:: nan]) (Some 99)),
      tuneridge svd_1x1 x_one y_one (PyFloat 2) = Ok ([:: nan], nan, nan)
    & forall (st : locals) (i : option nat),
        returned (Locals (bhat st) (lam st) (sigma2 st) (bhat1 st) i)
          = returned st].
Proof. by split; [vm_compute | vm_compute | case]. Qed.

(** C4, amended: when the loop exhausts its 100 iterations without meeting
    the tolerance, tuneridge raises nothing and returns the triple last
    computed, the outcome (bhat1, lam, sigma2) of round 100 of section 4.2;
    the result is that triple alone. *)
Theorem tuneridge_exhausted_returns_last (svd : mat -> result decomposition)
    (x : mat) (y : vec) (r2 : scalar) (q : float) (u : mat) (s : vec)
    (vt : mat) (st : locals) :
  one_over r2 = Ok q -> svd x = Ok (u, s, vt) ->
  tuneridge_upto svd 100 x y r2 = Ok (Continue, st) ->
  let a := Spec.shapeParam (shape x).2 in
  let b := (1 / PrimFloat.sqrt (q - 1))%float in
  let solve := fit u s (transpose vt) y in
  forall (s2 lam' : float) (bh' : vec),
    Spec.round solve x y (shape x).1 (shape x).2 a b
      (Spec.chain solve x y (shape x).1 (shape x).2 a b 99) = (s2, lam', bh') ->
    [/\ tuneridge svd x y r2 = Ok (bh', lam', s2),
        bhat1 st = Some bh', lam st = lam', sigma2 st = Some s2
      & itr st = Some 99].
Proof.
move=> Hq Hsvd Hrun a b solve s2 lam' bh' Hround.
have [fl [st' [k [Hrun' Hk Hc H0 Hr]]]] :=
  @tuneridge_upto_chain svd 100 x y r2 q u s vt Hq Hsvd.
move: Hrun'; rewrite Hrun => -[Hfl Hst]; move: Hc Hr; rewrite -Hfl -{}Hst.
move=> Hc Hr; have [Hk100 Hch] := Hc erefl.
have Hk0 : 0 < k by rewrite Hk100.
have Hpred : k.-1 = 99 by rewrite Hk100.
move: (Hr Hk0) Hch; rewrite Hpred Hk100 -/a -/b -/solve Hround.
intros [Hs Hl Hb1 Hi _].
rewrite (@Spec.chain_succ solve x y (shape x).1 (shape x).2 a b 99) Hround.
intros [= Hb _].
split; [ | exact: Hb1 | exact: Hl | exact: Hs | exact: Hi].
rewrite /tuneridge Hrun /bind /returned Hs Hb Hl.
reflexivity.
Qed.

Lemma tuneridge_exhausted_returns_last_witness :
  tuneridge_upto svd_1x1 100 x_one y_one (PyFloat 2)
    = Ok (Continue, Locals [:: nan] nan (Some nan) (Some [:: nan]) (Some 99))
  /\ tuneridge svd_1x1 x_one y_one (PyFloat 2) = Ok ([:: nan], nan, nan).
Proof.
have Hrun : tuneridge_upto svd_1x1 100 x_one y_one (PyFloat 2)
    = Ok (Continue, Locals [:: nan] nan (Some nan) (Some [:: nan]) (Some 99)).
  by vm_compute.
split; first exact: Hrun.
have Hround :
  Spec.round (fit [:: [:: 1%float]] [:: 1%float]
                (transpose [:: [:: 1%float]]) y_one) x_one y_one
    (shape x_one).1 (shape x_one).2 (Spec.shapeParam (shape x_one).2)
    (1 / PrimFloat.sqrt (0.5 - 1))%float
    (Spec.chain (fit [:: [:: 1%float]] [:: 1%float]
                   (transpose [:: [:: 1%float]]) y_one) x_one y_one
       (shape x_one).1 (shape x_one).2 (Spec.shapeParam (shape x_one).2)
       (1 / PrimFloat.sqrt (0.5 - 1))%float 99)
    = (nan, nan, [:: nan]).
  by vm_compute.
by have [] := @tuneridge_exhausted_returns_last svd_1x1 x_one y_one (PyFloat 2)
  0.5%float [:: [:: 1%float]] [:: 1%float] [:: [:: 1%float]] _ erefl erefl
  Hrun nan nan [:: nan] Hround.
Defined.

End F64Results.

Section F64Ridge.

Import F64.

Lemma size_vmul (a b : vec) : size (vmul a b) = minn (size a) (size b).
Proof. by rewrite /vmul size_map size_zip. Qed.

Lemma nth_vmul (a b : vec) (i : nat) :
  size a = size b ->
  nth 0%float (vmul a b) i = (nth 0%float a i * nth 0%float b i)%float.
Proof.
move=> Hab; case: (ltnP i (size a)) => Hi.
  rewrite /vmul (nth_map (0%float, 0%float)) ?size_zip -?Hab ?minnn //.
  by rewrite nth_zip.
have Hib : size b <= i by rewrite -Hab.
have Hiv : size (vmul a b) <= i by rewrite size_vmul -Hab minnn.
by rewrite (nth_default _ Hi) (nth_default _ Hib) (nth_default _ Hiv).
Qed.

Lemma size_np_dot (m : mat) (v : vec) : size (np_dot m v) = size m.
Proof. by rewrite /np_dot size_map. Qed.

Lemma size_transpose (m : mat) : size (transpose m) = size (head [::] m).
Proof. by rewrite /transpose size_map size_iota. Qed.

Lemma nth_transpose (m : mat) (j : nat) :
  j < size (head [::] m) ->
  nth [::] (transpose m) j = [seq nth 0%float r j | r <- m].
Proof.
by move=> Hj; rewrite /transpose (nth_map 0) ?size_iota // nth_iota.
Qed.

(** The shrinkage term of a zero singular value at a zero penalty is 0/0. *)
Lemma shrinkage_zero_nan (s : vec) (f : float) (i : nat) :
  i < size s -> is_zero (nth 0%float s i) = true -> is_zero f = true ->
  nth 0%float (shrinkage s f) i = nan.
Proof.
move=> Hi /is_zero_cases Hs /is_zero_cases Hf.
rewrite /shrinkage (nth_map 0%float) //.
by case: Hs => ->; case: Hf => ->.
Qed.

(** C3, as stated, fails: for the rank-deficient x = [[0]] (singular value
    0) the shrinkage term at lambda = 0 is NaN, not 0, and the coefficient
    returned is NaN. *)
Lemma ridge_rank_deficient_nan :
  shrinkage [:: 0%float] 0%float = [:: nan]
  /\ ridge svd_1x1 x_zero y_one 0%float = Ok [:: nan].
Proof. by split; vm_compute. Qed.

(** C3, amended: when some singular value is zero, the ridge solve at
    lambda = 0 evaluates its shrinkage term 0/(0+0) to NaN, and every
    coefficient it returns is NaN; there is no minimum-norm treatment of
    the 0/0 term. *)
Theorem ridge_zero_singular_value (svd : mat -> result decomposition)
    (x : mat) (y : vec) (f : float) (u : mat) (s : vec) (vt : mat) (i : nat) :
  svd x = Ok (u, s, vt) ->
  size (head [::] u) = size s -> size vt = size s ->
  i < size s -> is_zero (nth 0%float s i) = true -> is_zero f = true ->
  nth 0%float (shrinkage s f) i = nan
  /\ exists2 b : vec,
       ridge svd x y f = Ok b
       & forall j : nat, j < size b -> nth 0%float b j = nan.
Proof.
move=> Hsvd Hu Hvt Hi Hs Hf.
have Hg := shrinkage_zero_nan Hi Hs Hf.
split=> //; rewrite /ridge Hsvd /=.
set w := vmul _ _; set v := transpose vt.
exists (np_dot v w) => // j; rewrite size_np_dot size_transpose => Hj.
have Hw : size w = size s.
  by rewrite size_vmul size_np_dot size_transpose Hu size_map minnn.
have Hwi : nth 0%float w i = nan.
  rewrite nth_vmul ?Hg ?mul_nan_r //.
  by rewrite size_np_dot size_transpose Hu size_map.
rewrite /np_dot (nth_map [::]) ?size_transpose // nth_transpose //.
set r := map _ vt.
have Hr : size r = size w by rewrite size_map Hvt Hw.
apply: (@np_sum_nan _ i); first by rewrite size_vmul Hr minnn Hw.
by rewrite nth_vmul // Hwi mul_nan_r.
Qed.

Lemma ridge_zero_singular_value_witness :
  exists2 b : vec,
    ridge svd_1x1 x_zero y_one 0%float = Ok b
    & forall j : nat, j < size b -> nth 0%float b j = nan.
Proof.
by have [_] := @ridge_zero_singular_value svd_1x1 x_zero y_one 0%float
  [:: [:: 1%float]] [:: 0%float] [:: [:: 1%float]] 0
  erefl erefl erefl isT erefl erefl.
Defined.

End F64Ridge.

Section F64Store.

Import F64.

Lemma deref_rcons_old (h : heap) (a : ndarray) (r : ref) :
  r < size h -> deref (rcons h a) r = deref h r.
Proof. by move=> Hr; rewrite /deref nth_rcons Hr. Qed.

Lemma deref_rcons_new (h : heap) (a : ndarray) :
  deref (rcons h a) (size h) = a.
Proof. by rewrite /deref nth_rcons ltnn eqxx. Qed.

Lemma np_square_ok (h : heap) (a : ref) (v : vec) :
  deref h a = Arr1 v ->
  np_square a h = Ok (size h, rcons h (Arr1 (vsquare v))).
Proof. by rewrite /np_square /seq_prog /load1 => ->. Qed.

Lemma np_add_scalar_ok (h : heap) (a : ref) (f : float) (v : vec) :
  deref h a = Arr1 v ->
  np_add_scalar a f h = Ok (size h, rcons h (Arr1 [seq (t + f)%float | t <- v])).
Proof. by rewrite /np_add_scalar /seq_prog /load1 => ->. Qed.

Lemma np_divide_ok (h : heap) (a b : ref) (v w : vec) :
  deref h a = Arr1 v -> deref h b = Arr1 w ->
  np_divide a b h
    = Ok (size h, rcons h (Arr1 [seq (t.1 / t.2)%float | t <- zip v w])).
Proof. by rewrite /np_divide /seq_prog /load1 => -> ->. Qed.

Lemma np_multiply_ok (h : heap) (a b : ref) (v w : vec) :
  deref h a = Arr1 v -> deref h b = Arr1 w ->
  np_multiply a b h = Ok (size h, rcons h (Arr1 (vmul v w))).
Proof. by rewrite /np_multiply /seq_prog /load1 => -> ->. Qed.

Lemma np_T_ok (h : heap) (a : ref) (m : mat) :
  deref h a = Arr2 m ->
  np_T a h = Ok (size h, rcons h (Arr2 (transpose m))).
Proof. by rewrite /np_T /seq_prog /load2 => ->. Qed.

Lemma np_dot_ref_ok (h : heap) (a b : ref) (m : mat) (v : vec) :
  deref h a = Arr2 m -> deref h b = Arr1 v ->
  np_dot_ref a b h = Ok (size h, rcons h (Arr1 (np_dot m v))).
Proof. by rewrite /np_dot_ref /seq_prog /load2 /load1 => -> ->. Qed.

(** Dividing an array by its squares plus a scalar gives the shrinkage
    terms. *)
Lemma divide_shrinkage (s : vec) (f : float) :
  [seq (t.1 / t.2)%float | t <- zip s [seq (t + f)%float | t <- vsquare s]]
    = shrinkage s f.
Proof. by elim: s => //= t s ->. Qed.

(** What survives a call: the store only grows. *)
Definition grows (h h' : heap) : Prop :=
  size h <= size h' /\ forall r : ref, r < size h -> deref h' r = deref h r.

Lemma grows_refl (h : heap) : grows h h.
Proof. by split. Qed.

Lemma grows_trans (h1 h2 h3 : heap) : grows h1 h2 -> grows h2 h3 -> grows h1 h3.
Proof.
move=> [H12 D12] [H23 D23]; split; first exact: leq_trans H12 H23.
by move=> r Hr; rewrite D23 ?D12 //; apply: leq_trans Hr H12.
Qed.

Lemma grows_rcons (h h' : heap) (a : ndarray) :
  grows h h' -> grows h (rcons h' a).
Proof.
move=> [Hs Hd]; split; first by rewrite size_rcons; apply: leq_trans Hs _.
by move=> r Hr; rewrite deref_rcons_old ?Hd //; apply: leq_trans Hr Hs.
Qed.

(** One call of the closure: it allocates, writes to no array that existed
    before, and its result holds the vector [fit] computes from the
    captured arrays. *)
Lemma fit_call_spec (h : heap) (u s v yr : ref) (U : mat) (S : vec) (V : mat)
    (Y : vec) (lam : float) :
  [/\ u < size h, s < size h, v < size h & yr < size h] ->
  [/\ deref h u = Arr2 U, deref h s = Arr1 S, deref h v = Arr2 V
    & deref h yr = Arr1 Y] ->
  exists (r : ref) (h' : heap),
    [/\ fit_call u s v yr lam h = Ok (r, h'), grows h h'
      & deref h' r = Arr1 (fit U S V Y lam)].
Proof.
move=> [Hu Hs Hv Hy] [Du Ds Dv Dy].
pose h1 := rcons h (Arr1 (vsquare S)).
pose h2 := rcons h1 (Arr1 [seq (t + lam)%float | t <- vsquare S]).
pose h3 := rcons h2 (Arr1 (shrinkage S lam)).
pose h4 := rcons h3 (Arr2 (transpose U)).
pose h5 := rcons h4 (Arr1 (np_dot (transpose U) Y)).
pose h6 := rcons h5 (Arr1 (vmul (np_dot (transpose U) Y) (shrinkage S lam))).
pose h7 := rcons h6 (Arr1 (fit U S V Y lam)).
have G1 : grows h h1 by apply: grows_rcons; apply: grows_refl.
have G2 : grows h h2 by apply: grows_rcons.
have G3 : grows h h3 by apply: grows_rcons.
have G4 : grows h h4 by apply: grows_rcons.
have G5 : grows h h5 by apply: grows_rcons.
have G6 : grows h h6 by apply: grows_rcons.
have G7 : grows h h7 by apply: grows_rcons.
exists (size h6), h7; split=> //; last exact: deref_rcons_new.
rewrite /fit_call /seq_prog (np_square_ok Ds) -/h1.
rewrite (@np_add_scalar_ok h1 _ _ (vsquare S)); first exact: deref_rcons_new.
rewrite -/h2 (@np_divide_ok h2 _ _ S [seq (t + lam)%float | t <- vsquare S]);
  [by rewrite (proj2 G2) | exact: deref_rcons_new | ].
rewrite divide_shrinkage -/h3.
rewrite (@np_T_ok h3 _ U); first by rewrite (proj2 G3).
rewrite -/h4 (@np_dot_ref_ok h4 _ _ (transpose U) Y);
  [exact: deref_rcons_new | by rewrite (proj2 G4) | ].
rewrite -/h5 (@np_multiply_ok h5 _ _ (np_dot (transpose U) Y) (shrinkage S lam));
  [exact: deref_rcons_new | | ].
  rewrite /h5 deref_rcons_old; first by rewrite /h4 /h3 !size_rcons !ltnS leqnSn.
  rewrite /h4 deref_rcons_old; first by rewrite /h3 !size_rcons !ltnS leqnn.
  exact: deref_rcons_new.
rewrite -/h6 (@np_dot_ref_ok h6 _ _ V
           (vmul (np_dot (transpose U) Y) (shrinkage S lam))) //.
  by rewrite (proj2 G6).
exact: deref_rcons_new.
Qed.

(** Any number of calls, one after the other, keeps what the store held. *)
Lemma fit_calls_spec (h : heap) (u s v yr : ref) (U : mat) (S : vec) (V : mat)
    (Y : vec) (lams : seq float) :
  [/\ u < size h, s < size h, v < size h & yr < size h] ->
  [/\ deref h u = Arr2 U, deref h s = Arr1 S, deref h v = Arr2 V
    & deref h yr = Arr1 Y] ->
  exists (rs : seq ref) (h' : heap),
    fit_calls u s v yr lams h = Ok (rs, h') /\ grows h h'.
Proof.
elim: lams h => [|l lams IH] h Hb Hd /=.
  by exists [::], h; split=> //; apply: grows_refl.
have [r [h1 [Hcall G1 _]]] := @fit_call_spec h u s v yr U S V Y l Hb Hd.
have Hb1 : [/\ u < size h1, s < size h1, v < size h1 & yr < size h1].
  by case: Hb => *; split; apply: leq_trans (proj1 G1).
have Hd1 : [/\ deref h1 u = Arr2 U, deref h1 s = Arr1 S, deref h1 v = Arr2 V
             & deref h1 yr = Arr1 Y].
  by case: Hb Hd => ? ? ? ? [? ? ? ?]; split; rewrite (proj2 G1).
have [rs [h2 [Hcalls G2]]] := IH h1 Hb1 Hd1.
exists (r :: rs), h2; split; last exact: grows_trans G1 G2.
by rewrite /seq_prog Hcall Hcalls.
Qed.

(** C8: with the factorization of x held in the store, a call of the
    closure after any sequence of earlier calls returns exactly the vector
    that ridge(x, y, lam), which factorizes x again, returns; the arrays of
    the factorization and y are afterwards what they were. *)
Theorem fit_closure_matches_ridge (svd : mat -> result decomposition)
    (x : mat) (y : vec) (U : mat) (S : vec) (VT : mat) (h : heap)
    (u s v yr : ref) (lams : seq float) (lam : float) :
  svd x = Ok (U, S, VT) ->
  [/\ u < size h, s < size h, v < size h & yr < size h] ->
  [/\ deref h u = Arr2 U, deref h s = Arr1 S, deref h v = Arr2 (transpose VT)
    & deref h yr = Arr1 y] ->
  exists (r : ref) (h' : heap) (b : vec),
    [/\ (rs <~ fit_calls u s v yr lams ;; fit_call u s v yr lam) h = Ok (r, h'),
        deref h' r = Arr1 b,
        ridge svd x y lam = Ok b
      & [/\ deref h' u = Arr2 U, deref h' s = Arr1 S,
            deref h' v = Arr2 (transpose VT)
          & deref h' yr = Arr1 y]].
Proof.
move=> Hsvd Hb Hd.
have [rs [h1 [Hcalls G1]]] :=
  @fit_calls_spec h u s v yr U S (transpose VT) y lams Hb Hd.
have Hb1 : [/\ u < size h1, s < size h1, v < size h1 & yr < size h1].
  by case: Hb => *; split; apply: leq_trans (proj1 G1).
have Hd1 : [/\ deref h1 u = Arr2 U, deref h1 s = Arr1 S,
               deref h1 v = Arr2 (transpose VT) & deref h1 yr = Arr1 y].
  by case: Hb Hd => ? ? ? ? [? ? ? ?]; split; rewrite (proj2 G1).
have [r [h2 [Hcall G2 Hr]]] :=
  @fit_call_spec h1 u s v yr U S (transpose VT) y lam Hb1 Hd1.
exists r, h2, (fit U S (transpose VT) y lam); split=> //.
- by rewrite /seq_prog Hcalls.
- by rewrite /ridge Hsvd.
by case: Hb1 Hd1 => ? ? ? ? [? ? ? ?]; split; rewrite (proj2 G2).
Qed.

Lemma fit_closure_matches_ridge_witness :
  exists (r : ref) (h' : heap) (b : vec),
    [/\ (rs <~ fit_calls 0 1 2 3 [:: 1%float; 0.5%float] ;;
         fit_call 0 1 2 3 0.25%float) store_one = Ok (r, h'),
        deref h' r = Arr1 b
      & ridge svd_1x1 x_one y_one 0.25%float = Ok b].
Proof.
have [r [h' [b [Hrun Hr Hridge _]]]] :=
  @fit_closure_matches_ridge svd_1x1 x_one y_one
    [:: [:: 1%float]] [:: 1%float] [:: [:: 1%float]] store_one 0 1 2 3
    [:: 1%float; 0.5%float] 0.25%float erefl
    (And4 isT isT isT isT) (And4 erefl erefl erefl erefl).
by exists r, h', b.
Defined.

End F64Store.

Section F64Edge.

Import F64.

(** C6, as stated, fails in float64, and not only at 0/0.  With a zero
    singular value (s = [0], y = [1]) the solution at lambda = 0 is NaN
    while the solution at lambda = 1 is 0.  With the nonzero singular value
    1e-200 and y = [0] the square underflows and the solution at lambda = 0
    is NaN again (0 * inf).  With u = vt = I, s = [1, 1e-200],
    y = [1, 1e300] and the positive penalties 1e-300 <= 1 the product
    1e300 * 1e100 overflows, the zero entries of v turn it into NaN, and
    the norm at the larger penalty (1e100) is not below the norm at the
    smaller one. *)
Lemma ridge_norm_not_monotone :
  [/\ [/\ PrimFloat.leb 0%float 1%float = true,
          ridge svd_1x1 x_zero y_one 0%float = Ok [:: nan],
          ridge svd_1x1 x_zero y_one 1%float = Ok [:: 0%float]
        & PrimFloat.leb (norm [:: 0%float]) (norm [:: nan]) = false],
      [/\ is_zero 1e-200%float = false,
          ridge svd_1x1 x_1em200 y_zero 0%float = Ok [:: nan]
        & ridge svd_1x1 x_1em200 y_zero 1%float = Ok [:: 0%float]]
    & [/\ PrimFloat.ltb 0%float 1e-300%float = true,
          PrimFloat.leb 1e-300%float 1%float = true,
          ridge svd_scaled x_scaled y_large 1e-300%float
            = Ok [:: nan; infinity],
          ridge svd_scaled x_scaled y_large 1%float
            = Ok [:: 0.5%float; 1e100%float]
        & PrimFloat.leb (norm [:: 0.5%float; 1e100%float])
            (norm [:: nan; infinity]) = false]].
Proof. by split; split; vm_compute. Qed.

(** C7, as stated, fails in float64: for a 1-by-1 x of full column rank the
    least-squares solution of x b = y with y = x is b = 1 (x times 1 is y
    exactly), but the solve at lambda = 0 returns 1.0000111... for
    x = [[1e-160]] (s**2 is subnormal), +Inf for x = [[1e-200]] (s**2
    underflows to 0) and 0 for x = [[1e200]] (s**2 overflows). *)
Lemma ridge_full_rank_not_least_squares :
  [/\ [/\ np_dot x_1em160 [:: 1%float] = head [::] x_1em160,
          ridge svd_1x1 x_1em160 (head [::] x_1em160) 0%float
            = Ok [:: 1.000011132941258%float]
        & PrimFloat.ltb 1.00001%float 1.000011132941258%float = true],
      [/\ np_dot x_1em200 [:: 1%float] = head [::] x_1em200
        & ridge svd_1x1 x_1em200 (head [::] x_1em200) 0%float
            = Ok [:: infinity]]
    & [/\ np_dot x_1e200 [:: 1%float] = head [::] x_1e200
        & ridge svd_1x1 x_1e200 (head [::] x_1e200) 0%float
            = Ok [:: 0%float]]].
Proof. by split; split; vm_compute. Qed.

(** C10, as stated, fails.  With one predictor (x = [[1]], y = [1],
    r2 = 0.5) the first update gives lambda = 0, the second iteration
    computes sigma2 = 0 and its divisor bss/sigma2 + 2b is infinite.  With
    two predictors and a tiny response (x the identity, y = [1e-200, 0]) the
    squares underflow, sigma2 is 0 in the first iteration and the penalty
    passed to the solve is NaN. *)
Lemma tuneridge_sigma2_not_positive :
  [/\ tuneridge_upto svd_1x1 100 x_one y_one (PyFloat 0.5)
        = Ok (Break,
              Locals [:: 1%float] 0%float (Some 0%float) (Some [:: 1%float])
                (Some 1)),
      (Spec.bss [:: 1%float] / 0 + 2 * Spec.scaleParam 0.5)%float = infinity,
      tuneridge_upto svd_eye2 1 x_eye2 y_tiny (PyFloat 0.5)
        = Ok (Continue,
              Locals [:: nan; nan] nan (Some 0%float) (Some [:: nan; nan])
                (Some 0))
    & tuneridge svd_eye2 x_eye2 y_tiny (PyFloat 0.5)
        = Ok ([:: nan; nan], nan, nan)].
Proof. by split; vm_compute. Qed.

End F64Edge.

(** * Part IV: the exact reading, results *)

Section ExactSignificance.

Import Exact.
Local Open Scope ring_scope.
Import GRing.Theory Num.Theory.

Variable R : rcfType.
Variables (n p : nat).
Variable chi2_cdf : nat -> R -> R.

Lemma dot_mulmx (m : nat) (a b : 'cV[R]_m) : dot a b = (a^T *m b) 0 0.
Proof.
rewrite /dot /np_sum /vmul mxE.
by apply: eq_bigr => i _; rewrite !mxE.
Qed.

Lemma gram_sym (x : 'M[R]_(n, p)) : (gram x)^T = gram x.
Proof. by rewrite /gram trmx_mul trmxK. Qed.

Lemma ridge_matrix_sym (xtx : 'M[R]_p) (lam : R) :
  xtx^T = xtx -> (xtx + lam *: 1%:M)^T = xtx + lam *: 1%:M.
Proof. by move=> Hs; rewrite linearD /= linearZ /= trmx1 Hs. Qed.

(** The two nested solves give the sandwich H^-1 XtX H^-1. *)
Lemma fit_cov_sandwich (x : 'M[R]_(n, p)) (lam s2 : R) :
  let H := gram x + lam *: 1%:M in
  H \in unitmx ->
  fit_cov (gram x) lam s2 = Some (s2 *: (invmx H *m gram x *m invmx H)).
Proof.
move=> H HU; rewrite /fit_cov /solve -/H HU.
rewrite trmx_mul gram_sym trmx_inv (ridge_matrix_sym _ (gram_sym x)) -/H.
by rewrite mulmxA.
Qed.


End ExactSignificance.

Section ExactNorms.

Import Exact.
Local Open Scope ring_scope.
Import GRing.Theory Num.Theory Order.Theory.

Variable R : rcfType.

Lemma sqnorm_mulmx (m : nat) (v : 'cV[R]_m) : sqnorm v = (v^T *m v) 0 0.
Proof.
rewrite /sqnorm /np_sum /vsquare mxE.
by apply: eq_bigr => i _; rewrite !mxE expr2.
Qed.

Lemma sqnorm_sum (m : nat) (v : 'cV[R]_m) : sqnorm v = \sum_i (v i 0) ^+ 2.
Proof. by rewrite /sqnorm /np_sum; apply: eq_bigr => i _; rewrite mxE. Qed.

Lemma sqnorm_ge0 (m : nat) (v : 'cV[R]_m) : 0 <= sqnorm v.
Proof. by rewrite sqnorm_sum; apply: sumr_ge0 => i _; apply: sqr_ge0. Qed.

Lemma sqnorm_eq0 (m : nat) (v : 'cV[R]_m) : sqnorm v = 0 -> v = 0.
Proof.
move=> /eqP; rewrite sqnorm_sum psumr_eq0; first by move=> i _; apply: sqr_ge0.
move=> /allP H0; apply/matrixP => i j; rewrite ord1 mxE.
have := H0 i; rewrite mem_index_enum => /(_ isT) /=.
by rewrite sqrf_eq0 => /eqP.
Qed.

(** A matrix with orthonormal columns keeps the norm. *)
Lemma sqnorm_orth (m k : nat) (v : 'M[R]_(m, k)) (w : 'cV[R]_k) :
  v^T *m v = 1%:M -> sqnorm (v *m w) = sqnorm w.
Proof.
by move=> Hv; rewrite !sqnorm_mulmx trmx_mul mulmxA -(mulmxA w^T) Hv mulmx1.
Qed.

End ExactNorms.

Section ExactShrinkage.

Import Exact.
Local Open Scope ring_scope.
Import GRing.Theory Num.Theory Order.Theory.

Variable R : rcfType.
Variables (n p k : nat).

(** The squared norm of a ridge solution, direction by direction. *)
Lemma sqnorm_fit (u : 'M[R]_(n, k)) (s : 'cV[R]_k) (vt : 'M[R]_(k, p))
    (y : 'cV[R]_n) (lam : R) :
  vt *m vt^T = 1%:M ->
  sqnorm (fit u s vt^T y lam)
    = \sum_i ((u^T *m y) i 0 * (s i 0 / ((s i 0) ^+ 2 + lam))) ^+ 2.
Proof.
move=> Hvt; rewrite /fit sqnorm_orth ?trmxK // sqnorm_sum.
by apply: eq_bigr => i _; rewrite !mxE.
Qed.

(** One shrinkage term does not grow with the penalty. *)
Lemma shrink_term_mono (c s l1 l2 : R) :
  0 <= l1 <= l2 -> 0 < s ^+ 2 + l1 ->
  (c * (s / (s ^+ 2 + l2))) ^+ 2 <= (c * (s / (s ^+ 2 + l1))) ^+ 2.
Proof.
move=> /andP [H1 H12] Hd1.
have Hd2 : 0 < s ^+ 2 + l2 by apply: lt_le_trans Hd1 _; rewrite lerD2l.
rewrite !exprMn; apply: ler_wpM2l; first exact: sqr_ge0.
apply: ler_wpM2l; first exact: sqr_ge0.
rewrite !exprVn lef_pV2 ?posrE ?exprn_gt0 //.
by apply: lerXn2r; [rewrite nnegrE ltW | rewrite nnegrE ltW | rewrite lerD2l].
Qed.

(** A shrinkage term is at most the unshrunk product over the penalty. *)
Lemma shrink_term_bound (c s l : R) :
  0 < l -> (c * (s / (s ^+ 2 + l))) ^+ 2 <= (c * s) ^+ 2 / l ^+ 2.
Proof.
move=> Hl.
have Hd : 0 < s ^+ 2 + l by apply: ltr_wpDl => //; apply: sqr_ge0.
rewrite mulrA exprMn exprVn; apply: ler_wpM2l; first exact: sqr_ge0.
rewrite lef_pV2 ?posrE ?exprn_gt0 //.
by apply: lerXn2r; [rewrite nnegrE ltW | rewrite nnegrE ltW | rewrite lerDr sqr_ge0].
Qed.

(** C6, amended: for a decomposition whose vt has orthonormal rows, in
    exact arithmetic, the norm of the ridge solution does not grow with the
    penalty over every range of penalties on which no shrinkage term is 0/0
    (all of [0, oo) when no singular value is zero, (0, oo) otherwise), and
    it tends to zero as the penalty grows. *)
Theorem ridge_norm_shrinks (svd : 'M[R]_(n, p) -> decomposition R n p k)
    (x : 'M[R]_(n, p)) (y : 'cV[R]_n) (u : 'M[R]_(n, k)) (s : 'cV[R]_k)
    (vt : 'M[R]_(k, p)) :
  svd x = (u, s, vt) -> vt *m vt^T = 1%:M ->
  (forall l1 l2 : R,
     0 <= l1 <= l2 -> (forall i, (s i 0 != 0) || (0 < l1)) ->
     norm (ridge svd x y l2) <= norm (ridge svd x y l1))
  /\ (forall eps : R, 0 < eps ->
      exists L : R, forall l : R, L <= l -> norm (ridge svd x y l) < eps).
Proof.
move=> Hsvd Hvt.
have Hridge l : ridge svd x y l = fit u s vt^T y l by rewrite /ridge Hsvd.
split=> [l1 l2 Hl Hs|eps Heps].
  rewrite !Hridge /norm; apply: ler_wsqrtr; rewrite !sqnorm_fit //.
  apply: ler_sum => i _; apply: shrink_term_mono => //.
  case/andP: Hl => Hl1 _; case/orP: (Hs i) => [Hsi|Hl1'].
    by apply: ltr_wpDr => //; rewrite exprn_even_gt0.
  by apply: ltr_wpDl => //; apply: sqr_ge0.
pose M : R := \sum_i ((u^T *m y) i 0 * s i 0) ^+ 2.
have HM : 0 <= M by apply: sumr_ge0 => i _; apply: sqr_ge0.
exists (Num.sqrt M / eps + 1) => l Hl.
have Hl0 : 0 < l.
  apply: lt_le_trans Hl; apply: ltr_wpDl => //.
  by apply: divr_ge0; rewrite ?sqrtr_ge0 // ltW.
have Hb : sqnorm (ridge svd x y l) <= M / l ^+ 2.
  rewrite Hridge sqnorm_fit // /M mulr_suml.
  by apply: ler_sum => i _; apply: shrink_term_bound.
apply: le_lt_trans (ler_wsqrtr Hb) _.
rewrite sqrtrM // sqrtrV ?sqr_ge0 // sqrtr_sqr ger0_norm ?ltW //.
rewrite ltr_pdivrMr //.
apply: lt_le_trans (_ : Num.sqrt M + eps <= _); first by rewrite ltrDl.
have -> : Num.sqrt M + eps = eps * (Num.sqrt M / eps + 1).
  by rewrite mulrDr mulr1 mulrCA divff ?mulr1 // gt_eqF.
by rewrite ler_pM2l.
Qed.

End ExactShrinkage.

Section ExactLeastSquares.

Import Exact.
Local Open Scope ring_scope.
Import GRing.Theory Num.Theory Order.Theory.

Variable R : rcfType.
Variables (n p : nat).

Implicit Types (u : 'M[R]_(n, p)) (s : 'cV[R]_p) (vt : 'M[R]_(p, p)).

(** With full column rank, no singular value is zero. *)
Lemma full_rank_singular_values (x : 'M[R]_(n, p)) u s vt :
  is_svd x (u, s, vt) -> \rank x = p -> forall i, s i 0 != 0.
Proof.
move=> [Hx _ _ _] Hrank.
have Hfull : row_full (diag_mx s^T).
  rewrite /row_full eqn_leq rank_leq_col /= -{1}Hrank Hx.
  exact: leq_trans (mxrankM_maxl _ _) (mxrankM_maxr _ _).
move: Hfull; rewrite row_full_unit unitmxE unitfE det_diag => /prodf_neq0 H i.
by have := H i isT; rewrite mxE.
Qed.

(** At a zero penalty the shrinkage terms are the inverse singular values. *)
Lemma shrinkage_at_zero s :
  (forall i, s i 0 != 0) -> shrinkage s 0 = \col_i (s i 0)^-1.
Proof.
move=> Hs; apply/matrixP => i j; rewrite !mxE addr0 expr2 invfM mulrA.
by rewrite divff ?mul1r.
Qed.

Lemma vmul_diag (m : nat) (c g : 'cV[R]_m) : vmul c g = diag_mx g^T *m c.
Proof.
by apply/matrixP => i j; rewrite ord1 mul_diag_mx !mxE mulrC.
Qed.

Lemma diag_inverse s :
  (forall i, s i 0 != 0) ->
  diag_mx s^T *m diag_mx (\col_i (s i 0)^-1)^T = 1%:M.
Proof.
move=> Hs; rewrite mulmx_diag; apply/matrixP => i j.
by rewrite !mxE divff.
Qed.

(** The residual of the solution at a zero penalty is orthogonal to the
    columns of x (the normal equations). *)
Lemma ridge_normal_equations
    (svd : 'M[R]_(n, p) -> decomposition R n p p) (x : 'M[R]_(n, p))
    (y : 'cV[R]_n) u s vt :
  svd x = (u, s, vt) -> is_svd x (u, s, vt) -> \rank x = p ->
  x^T *m (y - x *m ridge svd x y 0) = 0.
Proof.
move=> Hsvd Hd Hrank.
have Hs := full_rank_singular_values Hd Hrank.
case: Hd => Hx Hu Hvt _.
rewrite /ridge Hsvd shrinkage_at_zero // vmul_diag.
set Di := diag_mx _; set D := diag_mx s^T in Hx.
have HD : D *m Di = 1%:M by apply: diag_inverse.
have Hxb : x *m (vt^T *m (Di *m (u^T *m y))) = u *m (u^T *m y).
  rewrite {1}Hx -!mulmxA (mulmxA vt) Hvt mul1mx (mulmxA D) HD mul1mx.
  by [].
rewrite Hxb {1}Hx !trmx_mul tr_diag_mx -/D mulmxBr -!mulmxA.
by rewrite (mulmxA u^T u) Hu mul1mx subrr.
Qed.

(** Moving away from a point whose residual is orthogonal to the columns
    of x adds the squared norm of the move to the residual sum of squares. *)
Lemma rss_pythagoras (x : 'M[R]_(n, p)) (y : 'cV[R]_n) (b0 b : 'cV[R]_p) :
  x^T *m (y - x *m b0) = 0 ->
  rss x y b = rss x y b0 + sqnorm (x *m (b0 - b)).
Proof.
move=> Hn; rewrite /rss -!/(sqnorm _).
have -> : y - x *m b = (y - x *m b0) + x *m (b0 - b).
  by rewrite mulmxBr addrA subrK.
set a := y - x *m b0; set c := x *m (b0 - b).
have Hca : c^T *m a = 0 by rewrite /c trmx_mul -mulmxA Hn mulmx0.
have Hac : a^T *m c = 0 by rewrite -[a^T *m c]trmxK trmx_mul trmxK Hca trmx0.
rewrite !sqnorm_mulmx mulmxDr [(a + c)^T]linearD /= !mulmxDl Hca Hac addr0 add0r.
by rewrite mxE.
Qed.

(** C7, amended: in exact arithmetic, when x has full column rank (so
    p <= n) and (u, s, vt) is its singular value decomposition, the ridge
    solution at lambda = 0 is the least-squares solution: it minimizes
    ||y - x b||^2 over all b and is the only minimizer. *)
Theorem ridge_zero_penalty_least_squares
    (svd : 'M[R]_(n, p) -> decomposition R n p p) (x : 'M[R]_(n, p))
    (y : 'cV[R]_n) u s vt :
  svd x = (u, s, vt) -> is_svd x (u, s, vt) -> \rank x = p ->
  forall b : 'cV[R]_p,
    rss x y (ridge svd x y 0) <= rss x y b
    /\ (rss x y b = rss x y (ridge svd x y 0) -> b = ridge svd x y 0).
Proof.
move=> Hsvd Hd Hrank b.
have Hn := ridge_normal_equations y Hsvd Hd Hrank.
have Hs := full_rank_singular_values Hd Hrank.
set b0 := ridge svd x y 0 in Hn *.
rewrite (rss_pythagoras b Hn); split; first by rewrite lerDl sqnorm_ge0.
move=> /eqP; rewrite -subr_eq0 addrC addKr => /eqP /sqnorm_eq0 Hxd.
case: Hd => Hx Hu Hvt _.
have HvtC : vt^T *m vt = 1%:M by apply: mulmx1C.
have HDi := diag_inverse Hs.
have : diag_mx s^T *m (vt *m (b0 - b)) = 0.
  rewrite -[LHS]mul1mx -Hu -!mulmxA (mulmxA (diag_mx _) vt) (mulmxA u).
  by rewrite (mulmxA u) -Hx Hxd mulmx0.
move=> /(congr1 (mulmx (diag_mx (\col_i (s i 0)^-1)^T))).
rewrite mulmxA (mulmx1C HDi) mul1mx mulmx0 => /(congr1 (mulmx vt^T)).
rewrite mulmxA HvtC mul1mx mulmx0 => /eqP.
by rewrite subr_eq0 => /eqP.
Qed.

End ExactLeastSquares.

Section ExactTuning.

Import Exact.
Local Open Scope ring_scope.
Import GRing.Theory Num.Theory Order.Theory.

Variable R : rcfType.
Variables (n p k : nat).
Variable svd : 'M[R]_(n, p) -> decomposition R n p k.
Variables (x : 'M[R]_(n, p)) (y : 'cV[R]_n).

Lemma scale_b_gt0 (r2 : R) : 0 < r2 < 1 -> 0 < scale_b r2.
Proof.
move=> /andP [H0 H1]; rewrite /scale_b div1r invr_gt0 sqrtr_gt0 subr_gt0.
by rewrite div1r invf_gt1.
Qed.

Lemma numerator_gt0 : (2 <= p)%N -> 0 < p%:R + 2 * shape_a R p - 2.
Proof.
move=> Hp; rewrite /shape_a mulrCA divff ?mulr1 ?pnatr_eq0 // -addrA.
apply: ltr_pwDl; first by rewrite ltr0n; apply: leq_trans Hp.
by rewrite subr_ge0 ler_nat.
Qed.

(** The noise variance is positive when the penalty is. *)
Lemma next_sigma2_gt0 (st : locals R p) :
  y != 0 -> 0 < lam st -> 0 < next_sigma2 x y st.
Proof.
move=> Hy Hl; rewrite /next_sigma2; apply: divr_gt0; last by rewrite ltr0n addnS.
have Hrss : 0 <= rss x y (bhat st) by apply: sqnorm_ge0.
have Hbss : 0 <= bss (bhat st) by apply: sqnorm_ge0.
move: Hbss; rewrite le_eqVlt => /orP [/eqP Hb0|Hb]; last first.
  by apply: ltr_wpDl => //; apply: mulr_gt0.
rewrite -Hb0 mulr0 addr0 lt0r Hrss andbT.
have -> : bhat st = 0 by apply: sqnorm_eq0; exact: esym Hb0.
rewrite /rss mulmx0 subr0; apply: contra Hy => /eqP H0.
by apply/eqP; apply: sqnorm_eq0.
Qed.

Lemma divisor_gt0 (b : R) (st : locals R p) :
  y != 0 -> 0 < b -> 0 < lam st -> 0 < divisor x y b st.
Proof.
move=> Hy Hb Hl; rewrite /divisor; apply: ltr_wpDl; last by apply: mulr_gt0.
by apply: divr_ge0; [apply: sqnorm_ge0 | apply/ltW/next_sigma2_gt0].
Qed.

Lemma next_lam_gt0 (b : R) (st : locals R p) :
  (2 <= p)%N -> y != 0 -> 0 < b -> 0 < lam st ->
  0 < next_lam x y (shape_a R p) b st.
Proof.
move=> Hp Hy Hb Hl; rewrite /next_lam; apply: divr_gt0; first exact: numerator_gt0.
exact: divisor_gt0.
Qed.

(** The loop keeps the penalty positive. *)
Lemma for_range_lam_gt0 (b : R) (solve : R -> 'cV[R]_p) (j : nat)
    (st st' : locals R p) :
  (2 <= p)%N -> y != 0 -> 0 < b -> 0 < lam st ->
  for_range x y (shape_a R p) b solve j st = (Continue, st') -> 0 < lam st'.
Proof.
move=> Hp Hy Hb; elim: j st => [|j IH] st Hl /=; first by case=> <-.
rewrite /body; case: ifP => _ //; apply: IH => /=.
exact: next_lam_gt0.
Qed.

(** C10, amended: in exact arithmetic, with at least two predictors, a
    nonzero y and r2 strictly between 0 and 1, every state from which the
    loop runs an iteration has a positive penalty, and that iteration
    computes a positive sigma2, a positive divisor bss/sigma2 + 2b and a
    positive new penalty: every penalty passed to the ridge solve is
    positive. *)
Theorem tuneridge_stays_positive (r2 : R) (cap : nat) (st : locals R p) :
  (2 <= p)%N -> y != 0 -> 0 < r2 < 1 ->
  tuneridge_upto svd cap x y r2 = (Continue, st) ->
  [/\ 0 < lam st, 0 < next_sigma2 x y st,
      0 < divisor x y (scale_b r2) st
    & 0 < next_lam x y (shape_a R p) (scale_b r2) st].
Proof.
move=> Hp Hy Hr2 Hrun.
have Hb := scale_b_gt0 Hr2.
have Hl : 0 < lam st.
  move: Hrun; rewrite /tuneridge_upto /start.
  by case: (svd x) => [[u s] vt]; apply: for_range_lam_gt0.
split=> //.
- exact: next_sigma2_gt0.
- exact: divisor_gt0.
exact: next_lam_gt0.
Qed.

End ExactTuning.

Section ExactWitnesses.

Import Exact.
Local Open Scope ring_scope.
Import GRing.Theory Num.Theory Order.Theory.



Lemma ridge_norm_shrinks_witness :
  norm (ridge (@svd_one algR) one one 1) <= norm (ridge (@svd_one algR) one one 0).
Proof.
have Hvt : (1%:M : 'M[algR]_1) *m (1%:M)^T = 1%:M by rewrite trmx1 mulmx1.
have [Hmono _] := @ridge_norm_shrinks algR 1 1 1 (@svd_one algR) one one
  1%:M 1%:M 1%:M erefl Hvt.
apply: Hmono; first by rewrite lexx ler01.
by move=> i; rewrite ord1 mxE eqxx oner_neq0.
Defined.

Lemma ridge_zero_penalty_least_squares_witness :
  rss one one (ridge (@svd_one algR) one one 0) <= rss one one 0.
Proof.
have Hd : is_svd one ((1%:M, 1%:M, 1%:M) : decomposition algR 1 1 1).
  split; rewrite ?trmx1 ?mulmx1 ?mul1mx //.
    by apply/matrixP => i j; rewrite !mxE !ord1 eqxx.
  by move=> i; rewrite mxE ler0n.
have Hrank : \rank one = 1 by rewrite /one mxrank1.
by have [] := @ridge_zero_penalty_least_squares algR 1 1 (@svd_one algR)
  one one 1%:M 1%:M 1%:M erefl Hd Hrank 0.
Defined.

Lemma tuneridge_stays_positive_witness :
  0 < lam (start (@svd_zero_wide algR) 0 one).
Proof.
have Hy : one != 0.
  by apply/eqP => /matrixP /(_ 0 0); rewrite !mxE /= => /eqP; rewrite oner_eq0.
have Hr2 : 0 < (2^-1 : algR) < 1.
  by rewrite invr_gt0 ltr0n /= invf_lt1 ?ltr0n // ltr1n.
have Hrun : tuneridge_upto (@svd_zero_wide algR) 0 0 one 2^-1
    = (Continue, start (@svd_zero_wide algR) 0 one) by [].
by have [] := @tuneridge_stays_positive algR 1 2 1 (@svd_zero_wide algR) 0 one
  2^-1 0 _ isT Hy Hr2 Hrun.
Defined.

End ExactWitnesses.

Section ExactSignificanceMore.

Import Exact.
Local Open Scope ring_scope.
Import GRing.Theory Num.Theory Order.Theory.

Variable R : rcfType.
Variables (n p : nat).
Variable chi2_cdf : nat -> R -> R.

Implicit Types (x : 'M[R]_(n, p)) (b : 'cV[R]_p).

(** The quadratic form of the Gram matrix is a squared norm. *)
Lemma gram_quadratic x (v : 'cV[R]_p) :
  (v^T *m gram x *m v) 0 0 = sqnorm (x *m v).
Proof. by rewrite sqnorm_mulmx trmx_mul /gram !mulmxA. Qed.

(** The Gram matrix plus a positive multiple of the identity is positive
    definite. *)
Lemma penalized_gram_unit x (lam : R) :
  0 < lam -> gram x + lam *: 1%:M \in unitmx.
Proof.
move=> Hl; set H := _ + _.
rewrite -row_free_unit -kermx_eq0; apply/eqP/row_matrixP => i.
rewrite row0; set v := row i (kermx H).
have Hv : v *m H = 0 by rewrite /v -row_mul mulmx_ker row0.
have : (v *m H *m v^T) 0 0 = 0 by rewrite Hv mul0mx mxE.
pose w := v^T; have -> : v = w^T by rewrite trmxK.
rewrite trmxK /H mulmxDr mulmxDl -scalemxAr mulmx1 -scalemxAl.
have HD (A B : 'M[R]_1) : (A + B) 0 0 = A 0 0 + B 0 0 by rewrite mxE.
have HZ (a : R) (A : 'M[R]_1) : (a *: A) 0 0 = a * A 0 0 by rewrite mxE.
rewrite HD HZ gram_quadratic -sqnorm_mulmx.
move=> /eqP; rewrite paddr_eq0 ?mulr_ge0 ?sqnorm_ge0 ?ltW //.
case/andP => _; rewrite mulf_eq0 (gt_eqF Hl) /= => /eqP /sqnorm_eq0 ->.
by rewrite trmx0.
Qed.

(** The solution of V t = b in closed form. *)
Lemma sandwich_solve x b (lam s2 : R) :
  let H := gram x + lam *: 1%:M in
  let V := s2 *: (invmx H *m gram x *m invmx H) in
  H \in unitmx -> gram x \in unitmx -> s2 != 0 ->
  V \in unitmx
  /\ invmx V *m b = s2^-1 *: (H *m invmx (gram x) *m H *m b).
Proof.
move=> H V HU GU Hs2.
have VU : V \in unitmx.
  by rewrite /V unitmxZ ?unitfE // !unitmx_mul unitmx_inv HU GU.
split=> //; set t := s2^-1 *: _.
suff <- : V *m t = b by rewrite mulKmx.
rewrite /V /t -scalemxAl -scalemxAr scalerA mulfV // scale1r.
rewrite -!mulmxA (mulmxA (invmx H) H) mulVmx // mul1mx.
by rewrite (mulmxA x^T) -/(gram x) (mulmxA (gram x)) mulmxV // mul1mx mulKmx.
Qed.

(** The statistic as a squared norm. *)
Lemma fit_stats_formula x b (lam s2 : R) :
  let H := gram x + lam *: 1%:M in
  H \in unitmx -> gram x \in unitmx -> 0 < s2 ->
  exists cs pv : R,
    [/\ fit_stats chi2_cdf (gram x) b lam s2 = Some (cs, pv),
        cs = sqnorm (x *m (invmx (gram x) *m (H *m b))) / s2
      & 0 <= cs].
Proof.
move=> H HU GU Hs2.
have Hs0 : s2 != 0 by rewrite gt_eqF.
have [VU Ht] := @sandwich_solve x b lam s2 HU GU Hs0.
set cs := sqnorm _ / s2.
exists cs, (1 - chi2_cdf p cs); split=> //; last first.
  by rewrite /cs divr_ge0 ?sqnorm_ge0 // ltW.
rewrite /fit_stats (fit_cov_sandwich s2 HU) /solve VU Ht dot_mulmx.
have -> : (b^T *m (s2^-1 *: (H *m invmx (gram x) *m H *m b))) 0 0 = cs; last by [].
rewrite -scalemxAr mxE /cs mulrC; congr (_ / _).
rewrite sqnorm_mulmx !trmx_mul trmx_inv gram_sym.
rewrite (ridge_matrix_sym lam (gram_sym x)) -/H -!mulmxA.
congr ((_ *m (_ *m _)) 0 0).
by rewrite (mulmxA x^T x) -/(gram x) mulKVmx.
Qed.

(** X6: when XtX + lambda I and XtX are invertible and sigma2 is positive,
    the statistic computed by fit is ||X (XtX)^-1 H b||^2 / sigma2, hence
    never negative. *)
Theorem fit_stats_nonneg x b (lam s2 : R) :
  let H := gram x + lam *: 1%:M in
  H \in unitmx -> gram x \in unitmx -> 0 < s2 ->
  exists cs pv : R,
    [/\ fit_stats chi2_cdf (gram x) b lam s2 = Some (cs, pv),
        cs = sqnorm (x *m (invmx (gram x) *m (H *m b))) / s2
      & 0 <= cs].
Proof. exact: fit_stats_formula. Qed.

End ExactSignificanceMore.

Section ExactPenalized.

Import Exact.
Local Open Scope ring_scope.
Import GRing.Theory Num.Theory Order.Theory.

Variable R : rcfType.
Variables (n p : nat).
Variable svd : 'M[R]_(n, p) -> decomposition R n p p.
Variable chi2_cdf : nat -> R -> R.

Implicit Types (u x : 'M[R]_(n, p)) (s : 'cV[R]_p) (vt : 'M[R]_(p, p)).
Implicit Types (y : 'cV[R]_n) (b : 'cV[R]_p).

(** The squared norm of a sum. *)
Lemma sqnorm_add (m : nat) (a c : 'cV[R]_m) :
  sqnorm (a + c) = sqnorm a + (a^T *m c) 0 0 *+ 2 + sqnorm c.
Proof.
have Hca : (c^T *m a) 0 0 = (a^T *m c) 0 0.
  by rewrite -[c^T *m a]trmxK trmx_mul trmxK mxE.
rewrite !sqnorm_mulmx mulmxDr [(a + c)^T]linearD /= !mulmxDl.
move: Hca; set aa := a^T *m a; set ca := c^T *m a; set ac := a^T *m c.
set cc := c^T *m c => Hca.
have HD (A B : 'M[R]_1) : (A + B) 0 0 = A 0 0 + B 0 0 by rewrite mxE.
by rewrite !HD Hca mulr2n !addrA.
Qed.

(** Applying s^2 + f to a shrunk direction gives back s times it. *)
Lemma shrink_identity (m : nat) (s c : 'cV[R]_m) (f : R) :
  (forall i, (s i 0) ^+ 2 + f != 0) ->
  diag_mx s^T *m (diag_mx s^T *m vmul c (shrinkage s f))
    + f *: vmul c (shrinkage s f)
  = diag_mx s^T *m c.
Proof.
move=> Hs; apply/matrixP => i j; rewrite !mul_diag_mx !mxE ord1.
set d := s i 0 ^+ 2 + f.
rewrite !mulrA -expr2 -!mulrDl -/d.
by rewrite [LHS]mulrC !mulrA (mulVf (Hs i)) mul1r mulrC.
Qed.

(** The ridge solution solves the penalized normal equations. *)
Lemma ridge_normal_eq x y (f : R) u s vt :
  svd x = (u, s, vt) -> is_svd x (u, s, vt) ->
  (forall i, (s i 0) ^+ 2 + f != 0) ->
  (gram x + f *: 1%:M) *m ridge svd x y f = x^T *m y.
Proof.
move=> Hsvd [Hx Hu Hvt _] Hs.
have HvtC : vt^T *m vt = 1%:M by apply: mulmx1C.
rewrite /ridge Hsvd /gram; set D := diag_mx s^T in Hx.
have Hw := shrink_identity (u^T *m y) Hs.
set w := vmul _ _ in Hw *.
rewrite mulmxDl -scalemxAl mul1mx scalemxAr.
rewrite {1 2 3}Hx !trmx_mul tr_diag_mx -/D -!mulmxA.
rewrite (mulmxA u^T u) Hu mul1mx (mulmxA vt vt^T) Hvt mul1mx.
by rewrite -mulmxDr Hw.
Qed.

(** X1: in exact arithmetic, when (u, s, vt) is a singular value
    decomposition of x (p <= n, vt square) and no shrinkage divisor
    s_i^2 + f is zero, the vector ridge returns solves the penalized normal
    equations (XtX + f I) b = Xt y. *)
Theorem ridge_penalized_normal_equations x y (f : R) u s vt :
  svd x = (u, s, vt) -> is_svd x (u, s, vt) ->
  (forall i, (s i 0) ^+ 2 + f != 0) ->
  (gram x + f *: 1%:M) *m ridge svd x y f = x^T *m y.
Proof. exact: ridge_normal_eq. Qed.

Lemma sqnormN (m : nat) (a : 'cV[R]_m) : sqnorm (- a) = sqnorm a.
Proof. by rewrite !sqnorm_mulmx [(- a)^T]linearN /= mulNmx mulmxN opprK. Qed.

Lemma shrink_divisor_neq0 s (f : R) :
  0 <= f -> (forall i, (s i 0 != 0) || (0 < f)) ->
  forall i, (s i 0) ^+ 2 + f != 0.
Proof.
move=> Hf Hs i; apply: lt0r_neq0; case/orP: (Hs i) => [Hsi|Hf0].
  by apply: ltr_wpDr => //; rewrite exprn_even_gt0.
by apply: ltr_wpDl => //; apply: sqr_ge0.
Qed.

(** X2: under the same conditions and f >= 0, the vector ridge returns
    minimizes ||y - X b||^2 + f ||b||^2 over all b: the SVD formula solves
    the ridge problem. *)
Theorem ridge_minimizes_penalized x y (f : R) u s vt b :
  svd x = (u, s, vt) -> is_svd x (u, s, vt) ->
  0 <= f -> (forall i, (s i 0 != 0) || (0 < f)) ->
  rss x y (ridge svd x y f) + f * bss (ridge svd x y f)
    <= rss x y b + f * bss b.
Proof.
move=> Hsvd Hd Hf Hs.
have Hne := @ridge_normal_eq x y f u s vt Hsvd Hd
  (shrink_divisor_neq0 Hf Hs).
set b0 := ridge svd x y f in Hne *.
pose d := b - b0; pose r := y - x *m b0.
have Hxr : x^T *m r = f *: b0.
  rewrite /r mulmxBr mulmxA -Hne mulmxDl -scalemxAl mul1mx.
  by rewrite /gram addrC addKr.
pose t := (b0^T *m d) 0 0.
have Hcross : (r^T *m - (x *m d)) 0 0 = - (f * t).
  rewrite mulmxN mxE mulmxA -[r^T *m x]trmxK trmx_mul trmxK Hxr.
  by rewrite linearZ /= -scalemxAl mxE.
have Hrss : rss x y b = rss x y b0 - (f * t) *+ 2 + sqnorm (x *m d).
  rewrite /rss -!/(sqnorm _) -/r.
  have -> : y - x *m b = r + - (x *m d).
    by rewrite /r /d mulmxBr opprB addrA subrK.
  by rewrite sqnorm_add Hcross sqnormN mulNrn.
have Hbss : bss b = bss b0 + t *+ 2 + sqnorm d.
  by rewrite /bss -!/(sqnorm _) -sqnorm_add /d addrC subrK.
rewrite Hrss Hbss !mulrDr -mulr2n.
set J0 := rss x y b0; set B0 := f * bss b0; set T := (f * t) *+ 2.
have Hre (a1 a2 a3 a4 a5 : R) :
    a1 - a2 + a3 + (a4 + a2 + a5) = a1 + a4 + (a3 + a5).
  rewrite -!addrA; congr (_ + _).
  by rewrite (addrCA a3) (addrCA (- a2)) (addrCA a3 a2) addKr.
rewrite Hre.
by rewrite lerDl addr_ge0 ?mulr_ge0 ?sqnorm_ge0.
Qed.

(** X3: in exact arithmetic ridge is linear in the response: for every
    factorization, ridge(x, y1 + c y2, f) = ridge(x, y1, f) + c ridge(x, y2, f). *)
Theorem ridge_linear_in_response x (y1 y2 : 'cV[R]_n) (c f : R) :
  ridge svd x (y1 + c *: y2) f = ridge svd x y1 f + c *: ridge svd x y2 f.
Proof.
rewrite /ridge; case: (svd x) => [[u s] vt].
rewrite scalemxAr -mulmxDr mulmxDr -scalemxAr; congr (_ *m _).
move: (u^T *m y1) (u^T *m y2) (shrinkage s f) => a1 a2 g.
by apply/matrixP => i j; rewrite !mxE mulrDl mulrA.
Qed.



End ExactPenalized.

Section ExactPreparation.

Import Exact.
Local Open Scope ring_scope.
Import GRing.Theory Num.Theory Order.Theory.

Variable R : rcfType.

(** A centered vector sums to zero. *)
Lemma np_sum_center (m : nat) (v : 'cV[R]_m) :
  (0 < m)%N -> np_sum (center v) = 0.
Proof.
move=> Hm; rewrite /np_sum /center.
under eq_bigr => i _ do rewrite mxE.
rewrite sumrB sumr_const card_ord /np_mean -/(np_sum v) -mulr_natr.
by rewrite divfK ?subrr // pnatr_eq0 -lt0n.
Qed.

(** X8: in exact arithmetic, the randomization of fit (y replaced by
    y[ii] for a permutation ii) keeps the sum of the response and its sum
    of squares: a centered response stays centered, with the same norm. *)
Theorem randomized_response_keeps_moments (m : nat) (ii : 'S_m)
    (y : 'cV[R]_m) :
  np_sum (take ii y) = np_sum y /\ sqnorm (take ii y) = sqnorm y.
Proof.
split.
  rewrite /np_sum [RHS](reindex_inj (@perm_inj _ ii)) /=.
  by apply: eq_bigr => i _; rewrite mxE.
rewrite !sqnorm_sum [RHS](reindex_inj (@perm_inj _ ii)) /=.
by apply: eq_bigr => i _; rewrite mxE.
Qed.

(** X9: in exact arithmetic, after the centering cell (n >= 1) the response
    sums to zero, every column of x sums to zero, and so do the fitted
    values x b for every coefficient vector b. *)
Theorem centered_data_sums_to_zero (n p : nat) (x : 'M[R]_(n, p))
    (y : 'cV[R]_n) :
  (0 < n)%N ->
  [/\ np_sum (center y) = 0,
      forall j, np_sum (col j (center_columns x)) = 0
    & forall b : 'cV[R]_p, np_sum (center_columns x *m b) = 0].
Proof.
move=> Hn.
have Hcol j : np_sum (col j (center_columns x)) = 0.
  have -> : col j (center_columns x) = center (col j x).
    by apply/matrixP => i k; rewrite !mxE.
  exact: np_sum_center.
split=> //; first exact: np_sum_center.
move=> b; rewrite /np_sum.
under eq_bigr => i _ do rewrite mxE.
rewrite exchange_big /=; apply: big1 => j _.
rewrite -mulr_suml; have := Hcol j; rewrite /np_sum.
under eq_bigr => i _ do rewrite mxE.
by move=> ->; rewrite mul0r.
Qed.

End ExactPreparation.

Section F64More.

Import F64.

Lemma div_nan_r (t : float) : (t / nan)%float = nan.
Proof.
apply: Prim2SF_inj; rewrite FloatAxioms.div_spec.
by case: (Prim2SF t) => [[]|[]||[] ? ?].
Qed.

Lemma sub_nan_l (t : float) : (nan - t)%float = nan.
Proof.
apply: Prim2SF_inj; rewrite FloatAxioms.sub_spec.
by case: (Prim2SF t) => [[]|[]||[] ? ?].
Qed.

Lemma ltb_nan_l (t : float) : PrimFloat.ltb nan t = false.
Proof.
rewrite FloatAxioms.ltb_spec.
by case: (Prim2SF t) => [[]|[]||[] ? ?].
Qed.

(** Zero divided by anything is a zero or NaN. *)
Lemma zero_div (d : float) :
  is_zero (0 / d)%float = true \/ (0 / d)%float = nan.
Proof.
have Hspec := FloatAxioms.div_spec 0%float d.
case Ed: (Prim2SF d) Hspec => [sd|sd||sd m e] Hspec.
- by right; apply: Prim2SF_inj; rewrite Hspec.
- left; rewrite /is_zero FloatAxioms.eqb_spec Hspec.
  by case: sd {Ed Hspec}.
- by right; apply: Prim2SF_inj; rewrite Hspec.
- left; rewrite /is_zero FloatAxioms.eqb_spec Hspec.
  by case: sd {Ed Hspec}.
Qed.

(** One NaN shrinkage term makes every coefficient NaN. *)
Lemma fit_nan_weight (u : mat) (s : vec) (vt : mat) (y : vec) (f : float)
    (i : nat) :
  size (head [::] u) = size s -> size vt = size s -> i < size s ->
  nth 0%float (shrinkage s f) i = nan ->
  forall j : nat, j < size (head [::] vt) ->
    nth 0%float (fit u s (transpose vt) y f) j = nan.
Proof.
move=> Hu Hvt Hi Hg j Hj; rewrite /fit.
set w := vmul _ _; set v := transpose vt.
have Hw : size w = size s.
  by rewrite size_vmul size_np_dot size_transpose Hu size_map minnn.
have Hwi : nth 0%float w i = nan.
  rewrite nth_vmul ?Hg ?mul_nan_r //.
  by rewrite size_np_dot size_transpose Hu size_map.
rewrite /np_dot (nth_map [::]) ?size_transpose // nth_transpose //.
set r := map _ vt.
have Hr : size r = size w by rewrite size_map Hvt Hw.
apply: (@np_sum_nan _ i); first by rewrite size_vmul Hr minnn Hw.
by rewrite nth_vmul // Hwi mul_nan_r.
Qed.

Lemma size_fit (u : mat) (s : vec) (vt : mat) (y : vec) (f : float) :
  size (fit u s (transpose vt) y f) = size (head [::] vt).
Proof. by rewrite /fit size_np_dot size_transpose. Qed.

Lemma shrinkage_nan (s : vec) (i : nat) :
  i < size s -> nth 0%float (shrinkage s nan) i = nan.
Proof.
by move=> Hi; rewrite /shrinkage (nth_map 0%float) // add_nan_r div_nan_r.
Qed.

Section NanLoop.

Variables (x : mat) (y : vec) (n p : nat) (a : float).
Variable solve : float -> vec.
Hypothesis solve_nan : exists2 t, solve nan = nan :: t & True.

(** With a NaN scale parameter an iteration never meets the tolerance. *)
Lemma body_nan_scale (i : nat) (st : locals) :
  0 < size (bhat st) ->
  exists s2 : float,
    body x y n p a nan solve i st
      = (Continue, Locals (solve nan) nan (Some s2) (Some (solve nan)) (Some i)).
Proof.
case: solve_nan => t Ht _; case Hb: (bhat st) => [//|b0 bt] _.
rewrite /body mul_nan_r add_nan_r div_nan_r Ht Hb /=.
set s2 := (_ / of_nat _)%float; exists s2.
by rewrite sub_nan_l mul_nan_r (@np_sum_nan _ 0) // ltb_nan_l.
Qed.

Lemma for_range_nan_scale (k i : nat) (st : locals) :
  0 < size (bhat st) ->
  exists st' : locals,
    for_range x y n p a nan solve i k st = (Continue, st')
    /\ (0 < k ->
        [/\ bhat st' = solve nan, lam st' = nan & itr st' = Some (i + k).-1]).
Proof.
elim: k i st => [|k IH] i st Hst; first by exists st.
have [s2 Hbody] := body_nan_scale i Hst.
set st1 := Locals _ _ _ _ _ in Hbody.
have Hst1 : 0 < size (bhat st1) by case: solve_nan => t /= -> _.
have [st' [Hrun Hk]] := IH i.+1 st1 Hst1.
exists st'; split; first by rewrite /= Hbody.
move=> _; case: k Hrun Hk {IH} => [|k] Hrun Hk.
  by move: Hrun => /= -[<-]; rewrite addn1.
by have [-> -> ->] := Hk isT; rewrite addSnnS.
Qed.

End NanLoop.

(** X12: when the scale parameter b = 1/sqrt(1/r2 - 1) is NaN (the square
    root of a negative number, as for r2 = 2) and the factorization has at
    least one singular value and one column, with conformable shapes, no
    iteration meets the tolerance: tuneridge runs all 100 iterations and
    returns a NaN penalty with every coefficient NaN. *)
Theorem tuneridge_nan_scale_exhausts (svd : mat -> result decomposition)
    (x : mat) (y : vec) (r2 : scalar) (q : float) (u : mat) (s : vec)
    (vt : mat) :
  one_over r2 = Ok q -> (1 / PrimFloat.sqrt (q - 1))%float = nan ->
  svd x = Ok (u, s, vt) ->
  [/\ size (head [::] u) = size s, size vt = size s, 0 < size s
    & 0 < size (head [::] vt)] ->
  exists (st : locals) (s2 : float),
    [/\ tuneridge_upto svd 100 x y r2 = Ok (Continue, st),
        itr st = Some 99,
        tuneridge svd x y r2 = Ok (bhat st, nan, s2),
        size (bhat st) = size (head [::] vt)
      & forall j : nat, j < size (bhat st) -> nth 0%float (bhat st) j = nan].
Proof.
move=> Hq Hb Hsvd [Hu Hvt Hs Hp].
pose solve := fit u s (transpose vt) y.
have Hall j : j < size (head [::] vt) -> nth 0%float (solve nan) j = nan.
  exact: (fit_nan_weight y Hu Hvt Hs (shrinkage_nan Hs)).
have Hsize l : size (solve l) = size (head [::] vt) by apply: size_fit.
have Hsolve : exists2 t, solve nan = nan :: t & True.
  move: (Hall 0 Hp) (Hsize nan); case: (solve nan) => [|t0 t] /=.
    by move=> _ H0; move: Hp; rewrite -H0.
  by move=> -> _; exists t.
pose st0 := Locals (solve 1%float) 1%float None None None.
have Hst0 : 0 < size (bhat st0) by rewrite /= Hsize.
have [st [Hrun Hk]] :=
  @for_range_nan_scale x y (shape x).1 (shape x).2
    (of_nat (shape x).2 / 2)%float solve Hsolve 100 0 st0 Hst0.
have [Hbh Hl Hi] := Hk isT.
have Hupto : tuneridge_upto svd 100 x y r2 = Ok (Continue, st).
  rewrite /tuneridge_upto Hq /bind Hsvd Hb.
  by congr Ok; exact: Hrun.
have [fl [st' [s2 [Hrun' Hs2]]]] :=
  @tuneridge_upto_returned svd x y r2 q (u, s, vt) Hq Hsvd.
move: Hrun'; rewrite Hupto; intros [= <- <-].
exists st, s2; split.
- reflexivity.
- exact: Hi.
- by rewrite /tuneridge Hupto /bind /returned Hs2 Hl.
- by rewrite Hbh Hsize.
by move=> j; rewrite Hbh Hsize; apply: Hall.
Qed.

(** X11: whenever the loop stops on the tolerance test, at iteration k, the
    coefficients tuneridge returns are those the iteration started from
    (the chain's coefficients after k rounds), paired with the penalty
    and sigma2 computed in that iteration; the refit at that penalty stays
    in bhat1. *)
Theorem tuneridge_break_returns_previous (svd : mat -> result decomposition)
    (x : mat) (y : vec) (r2 : scalar) (q : float) (u : mat) (s : vec)
    (vt : mat) (st : locals) :
  one_over r2 = Ok q -> svd x = Ok (u, s, vt) ->
  tuneridge_upto svd 100 x y r2 = Ok (Break, st) ->
  let a := Spec.shapeParam (shape x).2 in
  let b := (1 / PrimFloat.sqrt (q - 1))%float in
  let solve := fit u s (transpose vt) y in
  let chain := Spec.chain solve x y (shape x).1 (shape x).2 a b in
  exists k : nat,
    [/\ k < 100, itr st = Some k
      & forall (s2 lam' : float) (bh' : vec),
          Spec.round solve x y (shape x).1 (shape x).2 a b (chain k)
            = (s2, lam', bh') ->
          tuneridge svd x y r2 = Ok ((chain k).1, lam', s2)
          /\ bhat1 st = Some bh'].
Proof.
move=> Hq Hsvd Hrun a b solve chain.
have [fl [st' [k [Hrun' Hk Hc H0 Hr]]]] :=
  @tuneridge_upto_chain svd 100 x y r2 q u s vt Hq Hsvd.
move: Hrun'; rewrite Hrun; intros [= Hfl Hst].
move: Hk Hc H0 Hr; rewrite -Hfl -Hst {Hfl Hst} => Hk _ H0 Hr.
have Hk0 : 0 < k by case: k H0 {Hk Hr} => // /(_ erefl) [].
exists k.-1; split; first by rewrite prednK.
  by move: (Hr Hk0); case: (Spec.round _ _ _ _ _ _ _ _) => [[? ?] ?] [].
move=> s2 lam' bh' Hround; move: (Hr Hk0).
rewrite -/a -/b -/solve -/chain Hround; intros [Hs Hl Hb1 _ Hb].
split; last exact: Hb1.
by rewrite /tuneridge Hrun /bind /returned Hs Hl (Hb erefl).
Qed.

(** X13: with a single predictor the numerator p + 2a - 2 of the penalty
    update is zero, so whatever x, y and r2 are, the penalty tuneridge
    returns is a zero or NaN. *)
Theorem tuneridge_single_predictor (svd : mat -> result decomposition)
    (x : mat) (y : vec) (r2 : scalar) (bh : vec) (l s2 : float) :
  size (head [::] x) = 1 ->
  tuneridge svd x y r2 = Ok (bh, l, s2) ->
  is_zero l = true \/ l = nan.
Proof.
move=> Hp; rewrite /tuneridge.
case Hq: (one_over r2) => [q|e]; last by rewrite /tuneridge_upto Hq.
case Hsvd: (svd x) => [[[u s] vt]|e]; last by rewrite /tuneridge_upto Hq /= Hsvd.
have [fl [st [k [Hrun Hk Hc H0 Hr]]]] :=
  @tuneridge_upto_chain svd 100 x y r2 q u s vt Hq Hsvd.
rewrite Hrun /bind /returned.
have Hk0 : 0 < k.
  by case: k H0 Hc {Hrun Hk Hr} => // /(_ erefl) [_ ->] /(_ erefl) [].
move: (Hr Hk0); rewrite /Spec.round.
case: (Spec.chain _ _ _ _ _ _ _ _) => bh0 l0; intros [Hs Hl _ _ _].
rewrite Hs; intros [= _ <- _]; rewrite Hl /Spec.penalty /shape /= Hp.
exact: zero_div.
Qed.

(** With no column in vt the coefficient vectors are empty, and the first
    tolerance test compares two empty arrays. *)
Lemma tuneridge_upto_no_predictors (svd : mat -> result decomposition)
    (k : nat) (x : mat) (y : vec) (r2 : scalar) (q : float) (u : mat)
    (s : vec) (vt : mat) :
  one_over r2 = Ok q -> svd x = Ok (u, s, vt) -> size (head [::] vt) = 0 ->
  exists l s2 : float,
    tuneridge_upto svd k.+1 x y r2
      = Ok (Break, Locals [::] l (Some s2) (Some [::]) (Some 0)).
Proof.
move=> Hq Hsvd Hp.
have Hfit l : fit u s (transpose vt) y l = [::].
  by apply: size0nil; rewrite size_fit.
rewrite /tuneridge_upto Hq /= Hsvd /= /body !Hfit /=.
by eexists; eexists; reflexivity.
Qed.

(** X14: when the factorization has no column (x has no predictor), the
    coefficient vectors are empty, the first tolerance test succeeds, and
    tuneridge returns empty coefficients after one iteration. *)
Theorem tuneridge_no_predictors (svd : mat -> result decomposition)
    (x : mat) (y : vec) (r2 : scalar) (q : float) (u : mat) (s : vec)
    (vt : mat) :
  one_over r2 = Ok q -> svd x = Ok (u, s, vt) -> size (head [::] vt) = 0 ->
  exists (st : locals) (l s2 : float),
    [/\ tuneridge_upto svd 100 x y r2 = Ok (Break, st), itr st = Some 0
      & tuneridge svd x y r2 = Ok ([::], l, s2)].
Proof.
move=> Hq Hsvd Hp.
have [l [s2 Hrun]] := @tuneridge_upto_no_predictors svd 99 x y r2 q u s vt Hq Hsvd Hp.
exists (Locals [::] l (Some s2) (Some [::]) (Some 0)), l, s2.
split; [exact: Hrun | reflexivity | ].
by rewrite /tuneridge Hrun.
Qed.

End F64More.

Section F64Harness.

Import F64.

Variable svd : mat -> result decomposition.
Variable pow2 : float -> harness_result float.
Variable powi : float -> nat -> float.
Variable inv : mat -> result mat.
Variable solve : mat -> vec -> result vec.

(** X15: test_tuneridge1 needs two predictors: for p < 2 the assignment
    b[1] = -1 (b[0] = 1 when p = 0) raises IndexError, whatever the draws,
    and before any power, tuneridge or linear algebra is evaluated. *)
Theorem test_tuneridge1_needs_two_predictors (n p : nat) (r sig : float)
    (z : mat) (e : vec) :
  p < 2 ->
  test_tuneridge1 svd pow2 powi inv solve n p r sig z e = Fail IndexError.
Proof. by case: p => [|[|p]]. Qed.

(** X16: with at least two predictors and draws of the shapes the harness
    generates, whenever the two squares, inv, solve and the factorization
    succeed, test_tuneridge1 returns the penalty and the coefficients that
    tuneridge returns on (x, y, r2), together with
    lam_opt = sig^2 trace(inv(covx)) / b.solve(covx, b) and
    r2 = var(Ey) / (var(Ey) + sig^2); the r2 it passes is an np.float64, so
    a zero, one or NaN value of r2 raises nothing. *)
Theorem test_tuneridge1_succeeds (n p : nat) (r sig rr ss : float) (z : mat)
    (e : vec) (ci : mat) (cb : vec) (d : decomposition) :
  let c := PrimFloat.sqrt (1 - rr)%float in
  let x := [seq ar_row r c row | row <- z] in
  let b := [:: 1%float, (-1)%float & nseq p 0%float] in
  let covx :=
    [seq [seq powi r (maxn i j - minn i j) | j <- iota 0 p.+2]
       | i <- iota 0 p.+2] in
  let Ey := np_dot x b in
  let y := [seq (t.1 + sig * t.2)%float | t <- zip Ey e] in
  let r2 := (np_var Ey / (np_var Ey + ss))%float in
  rectangular z n p.+2 -> size e = n -> conformable x y d ->
  pow2 r = Done rr -> pow2 sig = Done ss ->
  inv covx = Ok ci -> solve covx b = Ok cb -> svd x = Ok d ->
  exists (bhat : vec) (lam sigma2 : float),
    tuneridge svd x y (NpFloat64 r2) = Ok (bhat, lam, sigma2)
    /\ test_tuneridge1 svd pow2 powi inv solve n p.+2 r sig z e
         = Done (lam, (ss * np_trace ci / dot b cb)%float, r2, bhat).
Proof.
move=> c x b covx Ey y r2 _ _ _ Hr Hsig Hinv Hsolve Hsvd.
have Hx : ar_columns pow2 p.+2 r z = Done x by rewrite /ar_columns /= Hr.
have [fl [st [s2 [Hrun Hs]]]] :=
  @tuneridge_upto_returned svd x y (NpFloat64 r2) _ d erefl Hsvd.
have Htune : tuneridge svd x y (NpFloat64 r2) = Ok (bhat st, lam st, s2).
  by rewrite /tuneridge Hrun /bind /returned Hs.
exists (bhat st), (lam st), s2; split; first exact: Htune.
rewrite /test_tuneridge1 Hx /hbind.
have -> : setitem (nseq p.+2 0%float) 0 1%float
          = Done [:: 1%float, 0%float & nseq p 0%float] by [].
have -> : setitem [:: 1%float, 0%float & nseq p 0%float] 1 (-1)%float
          = Done b by [].
by rewrite Hsig -/covx Hinv Hsolve /lift -/Ey -/y -/r2 Htune.
Qed.

End F64Harness.

Section MoreWitnesses.

Import Exact.
Local Open Scope ring_scope.
Import GRing.Theory Num.Theory Order.Theory.

Lemma is_svd_one : is_svd one ((1%:M, 1%:M, 1%:M) : decomposition algR 1 1 1).
Proof.
split; rewrite ?trmx1 ?mulmx1 ?mul1mx //.
  by apply/matrixP => i j; rewrite !mxE !ord1 eqxx.
by move=> i; rewrite mxE ler0n.
Qed.

Lemma gram_one_unit : gram one \in unitmx.
Proof. by rewrite /gram /one trmx1 mulmx1 unitmx1. Qed.

Lemma penalized_one_unit (lam : algR) :
  0 <= lam -> gram one + lam *: 1%:M \in unitmx.
Proof.
rewrite le_eqVlt => /orP [/eqP <-|Hl]; last exact: penalized_gram_unit.
by rewrite scale0r addr0 gram_one_unit.
Qed.

Lemma divisor_one (i : 'I_1) : ((1%:M : 'cV[algR]_1) i 0) ^+ 2 + 1 != 0.
Proof.
by rewrite ord1 mxE eqxx expr1n -(natrD _ 1 1) pnatr_eq0.
Qed.

Lemma ridge_penalized_normal_equations_witness :
  (gram one + 1 *: 1%:M) *m ridge (@svd_one algR) one one 1 = one^T *m one.
Proof.
exact: (@ridge_penalized_normal_equations algR 1 1 (@svd_one algR) one one 1
          1%:M 1%:M 1%:M erefl is_svd_one divisor_one).
Defined.

Lemma ridge_minimizes_penalized_witness :
  rss one one (ridge (@svd_one algR) one one 1)
    + 1 * bss (ridge (@svd_one algR) one one 1)
  <= rss one one 0 + 1 * bss (0 : 'cV[algR]_1).
Proof.
apply: (@ridge_minimizes_penalized algR 1 1 (@svd_one algR) one one 1
          1%:M 1%:M 1%:M 0 erefl is_svd_one ler01).
by move=> i; rewrite ltr01 orbT.
Defined.

Lemma fit_stats_nonneg_witness :
  exists cs pv : algR,
    fit_stats (fun _ _ => 0) (gram one) one 1 1 = Some (cs, pv) /\ 0 <= cs.
Proof.
have [cs [pv [Hfit _ Hcs]]] :=
  @fit_stats_nonneg algR 1 1 (fun _ _ => 0) one one 1 1
    (penalized_one_unit ler01) gram_one_unit ltr01.
by exists cs, pv.
Defined.


Lemma centered_data_sums_to_zero_witness : np_sum (center one) = 0.
Proof.
by have [] := @centered_data_sums_to_zero algR 1 1 one one isT.
Defined.

End MoreWitnesses.

Section F64MoreWitnesses.

Import F64.

Lemma tuneridge_break_returns_previous_witness :
  exists k : nat,
    k < 100
    /\ itr (Locals [:: 0.00390625%float] 0%float
              (Some 7.62939453125e-06%float) (Some [:: 0.0078125%float])
              (Some 0)) = Some k.
Proof.
have Hrun : tuneridge_upto svd_1x1 100 x_one y_small (PyFloat 0.5)
    = Ok (Break,
          Locals [:: 0.00390625%float] 0%float
            (Some 7.62939453125e-06%float) (Some [:: 0.0078125%float])
            (Some 0)).
  by vm_compute.
have [k [Hk Hi _]] :=
  @tuneridge_break_returns_previous svd_1x1 x_one y_small (PyFloat 0.5)
    2%float [:: [:: 1%float]] [:: 1%float] [:: [:: 1%float]] _
    erefl erefl Hrun.
exists k; split; [exact: Hk | exact: Hi].
Defined.

Lemma tuneridge_nan_scale_exhausts_witness :
  exists (st : locals) (s2 : float),
    tuneridge_upto svd_1x1 100 x_one y_one (PyFloat 2) = Ok (Continue, st)
    /\ tuneridge svd_1x1 x_one y_one (PyFloat 2) = Ok (bhat st, nan, s2).
Proof.
have [st [s2 [Hrun _ Hres _ _]]] :=
  @tuneridge_nan_scale_exhausts svd_1x1 x_one y_one (PyFloat 2) 0.5%float
    [:: [:: 1%float]] [:: 1%float] [:: [:: 1%float]] erefl erefl erefl
    (And4 erefl erefl isT isT).
exists st, s2; split; [exact: Hrun | exact: Hres].
Defined.

Lemma tuneridge_single_predictor_witness :
  is_zero 0%float = true \/ 0%float = nan.
Proof.
have Hres : tuneridge svd_1x1 x_one y_one (PyFloat 0.5)
    = Ok ([:: 1%float], 0%float, 0%float) by vm_compute.
exact: (@tuneridge_single_predictor svd_1x1 x_one y_one (PyFloat 0.5)
          [:: 1%float] 0%float 0%float erefl Hres).
Defined.

Lemma tuneridge_no_predictors_witness :
  exists (st : locals) (l s2 : float),
    tuneridge svd_empty [:: [::]] y_one (PyFloat 0.5) = Ok ([::], l, s2).
Proof.
have [st [l [s2 [_ _ Hres]]]] :=
  @tuneridge_no_predictors svd_empty [:: [::]] y_one (PyFloat 0.5) 2%float
    [:: [::]] [::] [::] erefl erefl erefl.
exists st, l, s2; exact: Hres.
Defined.

Lemma test_tuneridge1_needs_two_predictors_witness :
  test_tuneridge1 svd_1x1 (fun t => Done (t * t)%float) (fun t _ => t)
    (fun m => Ok m) (fun _ v => Ok v) 1 1 0.5%float 2%float
    [:: [:: 1%float]] [:: 0%float]
  = Fail IndexError.
Proof.
exact: (@test_tuneridge1_needs_two_predictors svd_1x1
          (fun t => Done (t * t)%float) (fun t _ => t) (fun m => Ok m)
          (fun _ v => Ok v) 1 1 0.5%float 2%float [:: [:: 1%float]]
          [:: 0%float] isT).
Defined.

Lemma test_tuneridge1_succeeds_witness :
  exists (bhat : vec) (lam lam_opt r2 : float),
    test_tuneridge1 svd_eye2 (fun t => Done (t * t)%float)
      (fun t k => if k is 0 then 1%float else t)
      (fun m => Ok m) (fun _ v => Ok v) 2 2 0%float 2%float
      x_eye2 [:: 0%float; 0%float]
    = Done (lam, lam_opt, r2, bhat).
Proof.
have [bhat [lam [sigma2 [_ Hres]]]] :=
  @test_tuneridge1_succeeds svd_eye2 (fun t => Done (t * t)%float)
    (fun t k => if k is 0 then 1%float else t) (fun m => Ok m)
    (fun _ v => Ok v) 2 0 0%float 2%float
    0%float 4%float x_eye2 [:: 0%float; 0%float] x_eye2
    [:: 1%float; (-1)%float] (x_eye2, [:: 1%float; 1%float], x_eye2)
    isT erefl isT erefl erefl erefl erefl erefl.
exists bhat, lam; eexists; eexists; exact: Hres.
Defined.

End F64MoreWitnesses.
